(** * DiOS libk vector: a shallow embedding of [include/libk/vector.h]

    The header generates, per element type, a growable array with
    [new], [push], [pop] and [delete].  The generated functions are
    embedded here as programs of a small heap monad; the three helpers
    they call ([new_vector], [delete_vector], [vector_resize]) and the
    kernel allocator are only declared in the header and are modelled
    from the specification.  The macros [push], [pop] and [delete] of
    lines 56-58 call the generated functions through the pointers
    stored in the struct; the struct keeps those pointers here, and the
    laws are stated on the functions themselves. *)

From Stdlib Require Import ZArith Lia.
From stdpp Require Import base option list gmap.

Local Open Scope Z_scope.

(** ** Machine integers and addresses *)

(** [#define DEFAULT_CAPACITY 1] *)
Definition DEFAULT_CAPACITY : Z := 1.

(** [uint32_t] arithmetic: every store into [size] or [capacity] is
    reduced modulo 2^32. *)
Definition UINT32_MAX : Z := 4294967295.
Definition u32 (z : Z) : Z := z mod 4294967296.

(** Addresses are integers; [NULL] is address 0 and is never mapped. *)
Definition NULL : Z := 0.

(** ** The structs *)

(** The six functions a generated struct can point to. *)
Inductive fnptr : Set :=
  | fn_delete_vector | fn_push_vector | fn_pop_vector
  | fn_delete_ptr_vector | fn_push_ptr_vector | fn_pop_ptr_vector.

(** [struct vector]: the prefix shared by every generated struct, which
    is what a [(vector* )] cast sees. *)
Record vector : Set := mk_vector {
  size : Z;          (* uint32_t *)
  capacity : Z;      (* uint32_t *)
  data_size : Z;     (* size_t *)
  data : Z           (* element buffer *)
}.

(** The members a generated struct adds after the prefix.  A member is
    [None] until the constructor has written it; [own_ptrs] exists in
    the pointer variant only. *)
Record members : Set := mk_members {
  own_ptrs : option bool;
  delete : option fnptr;
  push : option fnptr;
  pop : option fnptr
}.

Definition no_members : members := mk_members None None None None.

Definition set_size (n : Z) (v : vector) : vector :=
  mk_vector n (capacity v) (data_size v) (data v).
Definition set_capacity (n : Z) (v : vector) : vector :=
  mk_vector (size v) n (data_size v) (data v).
Definition set_data (p : Z) (v : vector) : vector :=
  mk_vector (size v) (capacity v) (data_size v) p.

Definition set_own_ptrs (b : bool) (m : members) : members :=
  mk_members (Some b) (delete m) (push m) (pop m).
Definition set_delete (f : fnptr) (m : members) : members :=
  mk_members (own_ptrs m) (Some f) (push m) (pop m).
Definition set_push (f : fnptr) (m : members) : members :=
  mk_members (own_ptrs m) (delete m) (Some f) (pop m).
Definition set_pop (f : fnptr) (m : members) : members :=
  mk_members (own_ptrs m) (delete m) (push m) (Some f).

(** ** The heap *)

(** A live allocation is a block.  [Raw] is memory nobody has written
    yet (and any object the vector code never looks into, such as the
    referent of a stored pointer); [Struct] is a vector struct;
    [Array] is an element buffer, one [option T] per slot, [None] for a
    slot that holds no defined value. *)
Inductive block (T : Type) : Type :=
  | Raw
  | Struct (v : vector) (m : members)
  | Array (cells : list (option T)).
Arguments Raw {T}.
Arguments Struct {T} v m.
Arguments Array {T} cells.

(** Running a piece of code either returns a value and a heap, or is
    undefined behaviour (a store through [NULL] or a dangling pointer,
    a store outside a buffer, freeing what is not allocated). *)
Inductive outcome (T A : Type) : Type :=
  | Ok (a : A) (h : gmap Z (block T))
  | Fault.
Arguments Ok {T A} a h.
Arguments Fault {T A}.

Definition M (T A : Type) : Type := gmap Z (block T) → outcome T A.

Global Instance M_ret {T} : MRet (M T) := λ A a h, Ok a h.
Global Instance M_bind {T} : MBind (M T) := λ A B k c h,
  match c h with Ok a h' => k a h' | Fault => Fault end.

(** Undefined behaviour. *)
Definition fault {T A} : M T A := λ _, Fault.

(** The block a pointer refers to; nothing lives at [NULL]. *)
Definition deref {T} (h : gmap Z (block T)) (p : Z) : option (block T) :=
  if decide (p = NULL) then None else h !! p.

(** ** Memory accesses *)

Section Access.
Context {T : Type}.
Implicit Types (h : gmap Z (block T)) (p : Z).

(** [p->size], [p->capacity], ... read through a [vector*]. *)
Definition load (p : Z) : M T vector := λ h,
  match deref h p with
  | Some (Struct v _) => Ok v h
  | _ => Fault
  end.

(** A store to the prefix fields.  The first store into fresh memory
    makes it a struct whose other members are still unwritten. *)
Definition store (p : Z) (v : vector) : M T unit := λ h,
  match deref h p with
  | Some (Struct _ m) => Ok tt (<[p := Struct v m]> h)
  | Some Raw => Ok tt (<[p := Struct v no_members]> h)
  | _ => Fault
  end.

Definition load_members (p : Z) : M T members := λ h,
  match deref h p with
  | Some (Struct _ m) => Ok m h
  | _ => Fault
  end.

Definition store_members (p : Z) (m : members) : M T unit := λ h,
  match deref h p with
  | Some (Struct v _) => Ok tt (<[p := Struct v m]> h)
  | _ => Fault
  end.

(** [d[i]] as an rvalue.  The code checks no bound: a read outside
    the buffer, or of a slot never written, yields no defined value. *)
Definition read (d i : Z) : M T (option T) := λ h,
  match deref h d with
  | Some (Array cells) =>
      Ok (if decide (0 ≤ i < Z.of_nat (length cells))
          then mjoin (cells !! Z.to_nat i) else None) h
  | _ => Fault
  end.

(** [d[i] = x].  A store outside the buffer corrupts memory. *)
Definition write (d i : Z) (x : T) : M T unit := λ h,
  match deref h d with
  | Some (Array cells) =>
      if decide (0 ≤ i < Z.of_nat (length cells))
      then Ok tt (<[d := Array (<[Z.to_nat i := Some x]> cells)]> h)
      else Fault
  | _ => Fault
  end.

(** [memcpy(dst, src, n * data_size)]: the first [n] slots of [src]
    overwrite the first [n] slots of [dst], indeterminate slots
    included. *)
Definition memcpy (dst src n : Z) : M T unit := λ h,
  match deref h dst, deref h src with
  | Some (Array to), Some (Array from) =>
      if decide (0 ≤ n ≤ Z.of_nat (length to) ∧ n ≤ Z.of_nat (length from))
      then Ok tt (<[dst := Array (take (Z.to_nat n) from ++ drop (Z.to_nat n) to)]> h)
      else Fault
  | _, _ => Fault
  end.
End Access.

(** ** The allocator and the generated code *)

Section Vector.
Context {T : Type}.

(** The kernel allocator is external.  All the vector code sees of it
    is which address a request of [n] bytes gets in the current heap;
    [NULL] means the request cannot be satisfied. *)
Variable alloc : gmap Z (block T) → Z → Z.

(** Modelled from the spec: [kmalloc] of [libk/heap.h], the
    [allocate(byte_count) -> buffer_handle | failure] of the
    allocator contract.  [view] is how the caller is going to use the
    fresh memory. *)
Definition kmalloc (n : Z) (view : block T) : M T Z := λ h,
  let p := alloc h n in
  if decide (p = NULL) then Ok NULL h else Ok p (<[p := view]> h).

(** Modelled from the spec: [kfree] of [libk/heap.h], the
    [free(buffer_handle)] of the allocator contract.  Freeing what is
    not allocated is undefined. *)
Definition kfree (p : Z) : M T unit := λ h,
  match deref h p with
  | Some _ => Ok tt (base.delete p h)
  | None => Fault
  end.

(** Modelled from the spec: [new_vector], declared on line 52 and
    defined outside the header.  It allocates the struct, sets
    [size = 0] and the default capacity, and allocates a buffer for
    that many elements; like the rest of the code it checks no
    allocation result. *)
Definition new_vector (vector_size size : Z) : M T Z :=
  vect ← kmalloc vector_size Raw;
  store vect (mk_vector 0 DEFAULT_CAPACITY size NULL);;
  d ← kmalloc (DEFAULT_CAPACITY * size)
              (Array (replicate (Z.to_nat DEFAULT_CAPACITY) None));
  v ← load vect;
  store vect (set_data d v);;
  mret vect.

(** Modelled from the spec: [delete_vector], declared on line 53:
    releases the buffer, then the struct. *)
Definition delete_vector (vect : Z) : M T unit :=
  v ← load vect;
  kfree (data v);;
  kfree vect.

(** Modelled from the spec: [vector_resize], declared on line 54.
    The new capacity is [max(1, capacity * 2)] in [uint32_t]
    arithmetic; a fresh buffer of that many slots is allocated, the
    first [size] slots are copied over, the old buffer is freed and
    the struct updated. *)
Definition vector_resize (vect : Z) : M T unit :=
  v ← load vect;
  let new_capacity := Z.max 1 (u32 (capacity v * 2)) in
  new_data ← kmalloc (new_capacity * data_size v)
                     (Array (replicate (Z.to_nat new_capacity) None));
  memcpy new_data (data v) (size v);;
  kfree (data v);;
  v ← load vect;
  store vect (set_data new_data (set_capacity new_capacity v)).

(** *** [GENERATE_VECTOR(type)], lines 60-95 *)

Variable sizeof_T : Z.          (* sizeof(type) *)
Variable sizeof_T_vector : Z.   (* sizeof(type##_vector) *)

Definition push_T_vector (vect : Z) (value : T) : M T unit :=
  v ← load vect;
  (if decide (size v = capacity v) then vector_resize vect else mret tt);;
  v ← load vect;
  write (data v) (size v) value;;
  v ← load vect;
  store vect (set_size (u32 (size v + 1)) v).

Definition pop_T_vector (vect : Z) : M T (option T) :=
  v ← load vect;
  store vect (set_size (u32 (size v - 1)) v);;
  v ← load vect;
  read (data v) (size v).

Definition delete_T_vector (vect : Z) : M T unit :=
  delete_vector vect.

(** [new_##type##_vector], lines 88-95, over whatever the helper
    [new_vector] does. *)
Definition new_T_vector_with (new_vector : Z → Z → M T Z) : M T Z :=
  vect ← new_vector sizeof_T_vector sizeof_T;
  m ← load_members vect; store_members vect (set_delete fn_delete_vector m);;
  m ← load_members vect; store_members vect (set_push fn_push_vector m);;
  m ← load_members vect; store_members vect (set_pop fn_pop_vector m);;
  mret vect.

(** The constructor with the helper as modelled above. *)
Definition new_T_vector : M T Z := new_T_vector_with new_vector.

(** *** Client programs used to state the laws *)

(** [push(v, x1); ...; push(v, xn)] *)
Fixpoint push_all (vect : Z) (xs : list T) : M T unit :=
  match xs with
  | [] => mret tt
  | x :: xs => push_T_vector vect x;; push_all vect xs
  end.

(** [k] successive [pop(v)], results in the order they are returned. *)
Fixpoint pop_n (vect : Z) (k : nat) : M T (list (option T)) :=
  match k with
  | O => mret []
  | S k => x ← pop_T_vector vect; xs ← pop_n vect k; mret (x :: xs)
  end.
End Vector.

(** *** [GENERATE_PTR_VECTOR(type)], lines 97-140 *)

(** The elements are addresses of separately allocated referents. *)
Section PtrVector.
Variable alloc : gmap Z (block Z) → Z → Z.
Variable sizeof_ptr : Z.              (* sizeof(type* ) *)
Variable sizeof_T_ptr_vector : Z.     (* sizeof(type##_ptr_vector) *)

Definition push_T_ptr_vector (vect : Z) (value : Z) : M Z unit :=
  v ← load vect;
  (if decide (size v = capacity v) then vector_resize alloc vect else mret tt);;
  v ← load vect;
  write (data v) (size v) value;;
  v ← load vect;
  store vect (set_size (u32 (size v + 1)) v).

Definition pop_T_ptr_vector (vect : Z) : M Z (option Z) :=
  v ← load vect;
  store vect (set_size (u32 (size v - 1)) v);;
  v ← load vect;
  read (data v) (size v).

(** [for (size_t i = 0; i < vect->size; i++) kfree(vect->data[i]);]
    The test reads [vect->size] afresh every time round.  The body
    never writes it, so [size - i] rounds are enough; [fuel] is that
    bound, and running out of it with the test still true does not
    happen (see [free_referents_run]). *)
Fixpoint free_referents (fuel : nat) (vect i : Z) : M Z unit :=
  v ← load vect;
  if decide (i < size v) then
    match fuel with
    | O => fault
    | S fuel =>
        v ← load vect;
        q ← read (data v) i;
        match q with Some p => kfree p | None => fault end;;
        free_referents fuel vect (i + 1)
    end
  else mret tt.

Definition delete_T_ptr_vector (vect : Z) : M Z unit :=
  m ← load_members vect;
  match own_ptrs m with
  | Some true => v ← load vect; free_referents (Z.to_nat (size v)) vect 0
  | Some false => mret tt
  | None => fault
  end;;
  delete_vector vect.

(** [new_##type##_ptr_vector], lines 131-140, over whatever the helper
    [new_vector] does. *)
Definition new_T_ptr_vector_with (new_vector : Z → Z → M Z Z) (own : bool)
    : M Z Z :=
  vect ← new_vector sizeof_T_ptr_vector sizeof_ptr;
  m ← load_members vect; store_members vect (set_own_ptrs own m);;
  m ← load_members vect; store_members vect (set_delete fn_delete_ptr_vector m);;
  m ← load_members vect; store_members vect (set_push fn_push_ptr_vector m);;
  m ← load_members vect; store_members vect (set_pop fn_pop_ptr_vector m);;
  mret vect.

(** The constructor with the helper as modelled above. *)
Definition new_T_ptr_vector (own : bool) : M Z Z :=
  new_T_ptr_vector_with (new_vector alloc) own.
End PtrVector.

(** ** Allocators to run the code with *)

(** An allocator that never runs out: the next address above every
    live block. *)
Definition bump {T} (h : gmap Z (block T)) (n : Z) : Z :=
  1 + foldr (λ kb top, Z.max kb.1 top) 0 (map_to_list h).

(** An allocator with no memory left. *)
Definition exhausted {T} (h : gmap Z (block T)) (n : Z) : Z := NULL.

(** An allocator with room for a single block. *)
Definition one_block {T} (h : gmap Z (block T)) (n : Z) : Z :=
  if decide (h = ∅) then 1 else NULL.


(** ** Well-formed vectors *)

(** The struct at [a] is [v] with members [m], and its buffer is live,
    apart from the struct, and has [capacity v] slots holding [cells];
    [size] and [capacity] are in [uint32_t] range. *)
Definition vec_at {T} (h : gmap Z (block T)) (a : Z) (v : vector)
    (m : members) (cells : list (option T)) : Prop :=
  a ≠ NULL ∧ data v ≠ NULL ∧ data v ≠ a ∧
  h !! a = Some (Struct v m) ∧ h !! data v = Some (Array cells) ∧
  Z.of_nat (length cells) = capacity v ∧
  0 ≤ size v ≤ UINT32_MAX ∧ capacity v ≤ UINT32_MAX.

(** The vector at [a] has members [m], capacity [c], and holds exactly
    the elements [xs], oldest first, in slots [0 .. size). *)
Definition holds {T} (h : gmap Z (block T)) (a : Z) (m : members) (c : Z)
    (xs : list T) : Prop :=
  ∃ v cells, vec_at h a v m cells ∧
    size v = Z.of_nat (length xs) ∧ capacity v = c ∧ size v ≤ c ∧
    take (length xs) cells = Some <$> xs.

(** The capacity after one push into a vector of capacity [c] holding
    [n] elements. *)
Definition next_capacity (c n : Z) : Z :=
  if decide (n = c) then Z.max 1 (c * 2) else c.

(** The members of a constructed value vector and of a constructed
    pointer vector. *)
Definition value_members : members :=
  mk_members None (Some fn_delete_vector) (Some fn_push_vector)
             (Some fn_pop_vector).
Definition ptr_members (own : bool) : members :=
  mk_members (Some own) (Some fn_delete_ptr_vector) (Some fn_push_ptr_vector)
             (Some fn_pop_ptr_vector).

(** The smallest power of two that is at least [n] (1 for [n = 0]). *)
Definition pow2_ceil (n : Z) : Z := 2 ^ Z.log2_up n.

(** ** Sequences of operations *)

(** One use of a vector: a push of some value, or a pop. *)
Inductive op (T : Type) : Type :=
  | Push (x : T)
  | Pop.
Arguments Push {T} x.
Arguments Pop {T}.

Section Ops.
Context {T : Type}.
Variable alloc : gmap Z (block T) → Z → Z.

Definition run_op (vect : Z) (o : op T) : M T unit :=
  match o with
  | Push x => push_T_vector alloc vect x
  | Pop => pop_T_vector vect;; mret tt
  end.

(** Runs the operations in order and records the struct as it is after
    each of them. *)
Fixpoint run_ops (vect : Z) (ops : list (op T)) : M T (list vector) :=
  match ops with
  | [] => mret []
  | o :: ops =>
      run_op vect o;;
      v ← load vect;
      vs ← run_ops vect ops;
      mret (v :: vs)
  end.

(** A sequence is within the contract of the operations when, started
    with [n] elements held, it never pops from an empty vector and never
    holds more than 2^31 elements. *)
Fixpoint within_contract (n : Z) (ops : list (op T)) : bool :=
  match ops with
  | [] => true
  | Push _ :: ops => bool_decide (n < 2147483648) && within_contract (n + 1) ops
  | Pop :: ops => bool_decide (0 < n) && within_contract (n - 1) ops
  end.
End Ops.

(** The states a vector goes through: built by the constructor [new],
    then used through [push] and [pop], in any order and any number of
    times. *)
Inductive reachable {T} (new : M T Z) (push : Z → T → M T unit)
    (pop : Z → M T (option T)) : gmap Z (block T) → Z → Prop :=
  | reach_new h0 a h :
      new h0 = Ok a h → reachable new push pop h a
  | reach_push h a x h' :
      reachable new push pop h a → push a x h = Ok tt h' →
      reachable new push pop h' a
  | reach_pop h a r h' :
      reachable new push pop h a → pop a h = Ok r h' →
      reachable new push pop h' a.

(** ** Pointer vectors: client programs and bookkeeping *)

(** [k] successive [pop(v)] on a pointer vector. *)
Fixpoint pop_ptr_n (vect : Z) (k : nat) : M Z (list (option Z)) :=
  match k with
  | O => mret []
  | S k => x ← pop_T_ptr_vector vect; xs ← pop_ptr_n vect k; mret (x :: xs)
  end.

(** The heap once every block of [ps] has been released, first to last. *)
Definition free_all (ps : list Z) (h : gmap Z (block Z)) : gmap Z (block Z) :=
  foldl (λ h p, base.delete p h) h ps.

(** What a pop does to the vector at [a] whose struct is [v] and whose
    buffer holds [cells]: it returns the content of the last occupied
    slot, changes nothing but [size], leaves the buffer as it was, and,
    when [size ≤ capacity] held, the next push stores into the vacated
    slot without reallocating. *)
Definition pop_post {T} (pop : M T (option T)) (push : T → M T unit)
    (h : gmap Z (block T)) (a : Z) (v : vector) (m : members)
    (cells : list (option T)) : Prop :=
  ∃ h',
    pop h = Ok (mjoin (cells !! Z.to_nat (size v - 1))) h' ∧
    h' = <[a := Struct (set_size (size v - 1) v) m]> h ∧
    h' !! data v = Some (Array cells) ∧
    (size v ≤ capacity v →
     ∀ y, push y h'
          = Ok tt (<[a := Struct v m]>
                     (<[data v := Array (<[Z.to_nat (size v - 1) := Some y]> cells)]> h))).

(** ** Sample heaps *)

(** A freshly constructed [int] vector: struct at 1, buffer at 2. *)
Definition fresh_int_vector : gmap Z (block Z) :=
  <[1 := Struct (mk_vector 0 1 4 2) value_members]>
    (<[2 := Array [None]]> ∅).

(** An [int] vector after pushing 10, 20 and 30. *)
Definition int_vector_3 : gmap Z (block Z) :=
  <[1 := Struct (mk_vector 3 4 4 4) value_members]>
    (<[4 := Array [Some 10; Some 20; Some 30; None]]> ∅).

(** A full [int] vector of capacity 2. *)
Definition int_vector_full : gmap Z (block Z) :=
  <[1 := Struct (mk_vector 2 2 4 3) value_members]>
    (<[3 := Array [Some 10; Some 20]]> ∅).

(** A [char] vector holding 2^31 elements, which is also its capacity. *)
Definition char_vector_2_31 : gmap Z (block Z) :=
  <[1 := Struct (mk_vector 2147483648 2147483648 1 2) value_members]>
    (<[2 := Array (replicate (Z.to_nat 2147483648) (Some 0))]> ∅).

(** A pointer vector holding the addresses 3 and 4 of two live
    referents, with the given [own_ptrs]. *)
Definition ptr_vector_2 (own : bool) : gmap Z (block Z) :=
  <[1 := Struct (mk_vector 2 2 4 5) (ptr_members own)]>
    (<[5 := Array [Some 3; Some 4]]> (<[3 := Raw]> (<[4 := Raw]> ∅))).

(** ** The macros, the helper as a parameter, and a stack to compare with *)

(** [push_##type##_vector], lines 71-77, over whatever the helper
    [vector_resize] does; [push_T_vector] is this code with the helper
    as modelled. *)
Definition push_T_vector_with {T} (vector_resize : Z → M T unit)
    (vect : Z) (value : T) : M T unit :=
  v ← load vect;
  (if decide (size v = capacity v) then vector_resize vect else mret tt);;
  v ← load vect;
  write (data v) (size v) value;;
  v ← load vect;
  store vect (set_size (u32 (size v + 1)) v).

Section Macros.
Context {T : Type}.

(** [#define push(__vector, __value) __vector->push(__vector, __value)],
    line 57: the call goes through the pointer stored in the struct.
    [code] says which function of the struct's own variant a pointer
    denotes; a pointer that is unset, or that denotes a function of
    another variant, cannot be called. *)
Definition push_macro (code : fnptr → option (Z → T → M T unit))
    (vect : Z) (value : T) : M T unit :=
  m ← load_members vect;
  match push m with
  | Some f =>
      match code f with
      | Some run => run vect value
      | None => fault
      end
  | None => fault
  end.

(** [#define pop(__vector) __vector->pop(__vector)], line 58. *)
Definition pop_macro (code : fnptr → option (Z → M T (option T)))
    (vect : Z) : M T (option T) :=
  m ← load_members vect;
  match pop m with
  | Some f =>
      match code f with
      | Some run => run vect
      | None => fault
      end
  | None => fault
  end.

Variable alloc : gmap Z (block T) → Z → Z.

(** The functions [GENERATE_VECTOR(type)] defines for its struct. *)
Definition value_push_code (f : fnptr) : option (Z → T → M T unit) :=
  match f with
  | fn_push_vector => Some (push_T_vector alloc)
  | _ => None
  end.

Definition value_pop_code (f : fnptr) : option (Z → M T (option T)) :=
  match f with
  | fn_pop_vector => Some pop_T_vector
  | _ => None
  end.

(** Runs the operations in order and collects what the pops return. *)
Fixpoint exec_ops (vect : Z) (ops : list (op T)) : M T (list (option T)) :=
  match ops with
  | [] => mret []
  | Push x :: ops => push_T_vector alloc vect x;; exec_ops vect ops
  | Pop :: ops =>
      r ← pop_T_vector vect;
      rs ← exec_ops vect ops;
      mret (r :: rs)
  end.
End Macros.

(** The functions [GENERATE_PTR_VECTOR(type)] defines for its struct. *)
Definition ptr_push_code (alloc : gmap Z (block Z) → Z → Z) (f : fnptr)
    : option (Z → Z → M Z unit) :=
  match f with
  | fn_push_ptr_vector => Some (push_T_ptr_vector alloc)
  | _ => None
  end.

Definition ptr_pop_code (f : fnptr) : option (Z → M Z (option Z)) :=
  match f with
  | fn_pop_ptr_vector => Some pop_T_ptr_vector
  | _ => None
  end.

(** The same runner over the functions of the pointer variant. *)
Fixpoint exec_ptr_ops (alloc : gmap Z (block Z) → Z → Z) (vect : Z)
    (ops : list (op Z)) : M Z (list (option Z)) :=
  match ops with
  | [] => mret []
  | Push x :: ops => push_T_ptr_vector alloc vect x;; exec_ptr_ops alloc vect ops
  | Pop :: ops =>
      r ← pop_T_ptr_vector vect;
      rs ← exec_ptr_ops alloc vect ops;
      mret (r :: rs)
  end.

(** A stack as a list, newest element first: what the pops of [ops]
    return, and what is left, starting from [st]. *)
Fixpoint stack_model {T} (ops : list (op T)) (st : list T)
    : list (option T) * list T :=
  match ops with
  | [] => ([], st)
  | Push x :: ops => stack_model ops (x :: st)
  | Pop :: ops =>
      let r := stack_model ops (tail st) in (head st :: r.1, r.2)
  end.

(** The sequence, started with [n] elements held, never pops from an
    empty vector and never pushes into one that holds [c] elements. *)
Fixpoint fits {T} (c n : Z) (ops : list (op T)) : bool :=
  match ops with
  | [] => true
  | Push _ :: ops => bool_decide (n < c) && fits c (n + 1) ops
  | Pop :: ops => bool_decide (0 < n) && fits c (n - 1) ops
  end.

(** A pointer the owning delete can free: a live allocation that is
    neither the struct nor the buffer of the vector. *)
Definition freeable (h : gmap Z (block Z)) (a d p : Z) : Prop :=
  p ≠ NULL ∧ p ≠ a ∧ p ≠ d ∧ is_Some (h !! p).

(** A helper that gives up without a word: it returns and has changed
    nothing. *)
Definition resize_gives_up {T} (vect : Z) : M T unit := mret tt.

(** A pointer vector holding the address 3 twice. *)
Definition ptr_vector_twice : gmap Z (block Z) :=
  <[1 := Struct (mk_vector 2 2 4 5) (ptr_members true)]>
    (<[5 := Array [Some 3; Some 3]]> (<[3 := Raw]> ∅)).

(** * Running the primitives *)

Section Runs.
Context {T : Type}.
Implicit Types (h : gmap Z (block T)) (p d a : Z) (v : vector) (m : members).

Lemma bind_run {A B} (c : M T A) (k : A → M T B) h x h' :
  c h = Ok x h' → (c ≫= k) h = k x h'.
Proof. intros E. unfold mbind, M_bind. by rewrite E. Qed.

Lemma bind_fault {A B} (c : M T A) (k : A → M T B) h :
  c h = Fault → (c ≫= k) h = Fault.
Proof. intros E. unfold mbind, M_bind. by rewrite E. Qed.

Lemma deref_live h p b : p ≠ NULL → h !! p = Some b → deref h p = Some b.
Proof. intros Hp Hb. unfold deref. by rewrite decide_False. Qed.

Lemma load_run h p v m :
  p ≠ NULL → h !! p = Some (Struct v m) → load p h = Ok v h.
Proof. intros Hp Hb. unfold load. by rewrite (deref_live _ _ _ Hp Hb). Qed.

Lemma store_run h p v m v' :
  p ≠ NULL → h !! p = Some (Struct v m) →
  store p v' h = Ok tt (<[p := Struct v' m]> h).
Proof. intros Hp Hb. unfold store. by rewrite (deref_live _ _ _ Hp Hb). Qed.

Lemma store_raw_run h p v' :
  p ≠ NULL → h !! p = Some Raw →
  store p v' h = Ok tt (<[p := Struct v' no_members]> h).
Proof. intros Hp Hb. unfold store. by rewrite (deref_live _ _ _ Hp Hb). Qed.

Lemma load_members_run h p v m :
  p ≠ NULL → h !! p = Some (Struct v m) → load_members p h = Ok m h.
Proof. intros Hp Hb. unfold load_members. by rewrite (deref_live _ _ _ Hp Hb). Qed.

Lemma store_members_run h p v m m' :
  p ≠ NULL → h !! p = Some (Struct v m) →
  store_members p m' h = Ok tt (<[p := Struct v m']> h).
Proof. intros Hp Hb. unfold store_members. by rewrite (deref_live _ _ _ Hp Hb). Qed.

Lemma read_run h d i cells :
  d ≠ NULL → h !! d = Some (Array cells) →
  read d i h = Ok (if decide (0 ≤ i < Z.of_nat (length cells))
                   then mjoin (cells !! Z.to_nat i) else None) h.
Proof. intros Hp Hb. unfold read. by rewrite (deref_live _ _ _ Hp Hb). Qed.

Lemma write_run h d i x cells :
  d ≠ NULL → h !! d = Some (Array cells) →
  0 ≤ i < Z.of_nat (length cells) →
  write d i x h = Ok tt (<[d := Array (<[Z.to_nat i := Some x]> cells)]> h).
Proof.
  intros Hp Hb Hi. unfold write. rewrite (deref_live _ _ _ Hp Hb).
  by rewrite decide_True.
Qed.

Lemma write_outside h d i x cells :
  d ≠ NULL → h !! d = Some (Array cells) →
  ¬ (0 ≤ i < Z.of_nat (length cells)) →
  write d i x h = Fault.
Proof.
  intros Hp Hb Hi. unfold write. rewrite (deref_live _ _ _ Hp Hb).
  by rewrite decide_False.
Qed.

Lemma memcpy_run h dst src n to from :
  dst ≠ NULL → src ≠ NULL →
  h !! dst = Some (Array to) → h !! src = Some (Array from) →
  0 ≤ n ≤ Z.of_nat (length to) → n ≤ Z.of_nat (length from) →
  memcpy dst src n h
  = Ok tt (<[dst := Array (take (Z.to_nat n) from ++ drop (Z.to_nat n) to)]> h).
Proof.
  intros H1 H2 H3 H4 H5 H6. unfold memcpy.
  rewrite (deref_live _ _ _ H1 H3), (deref_live _ _ _ H2 H4).
  by rewrite decide_True.
Qed.

Lemma memcpy_overflow h dst src n to from :
  dst ≠ NULL → src ≠ NULL →
  h !! dst = Some (Array to) → h !! src = Some (Array from) →
  Z.of_nat (length to) < n →
  memcpy dst src n h = Fault.
Proof.
  intros H1 H2 H3 H4 H5. unfold memcpy.
  rewrite (deref_live _ _ _ H1 H3), (deref_live _ _ _ H2 H4).
  rewrite decide_False; [done | lia].
Qed.

Lemma memcpy_NULL h src n : memcpy NULL src n h = Fault.
Proof. done. Qed.

Lemma kfree_run h p b :
  p ≠ NULL → h !! p = Some b → kfree p h = Ok tt (base.delete p h).
Proof. intros Hp Hb. unfold kfree. by rewrite (deref_live _ _ _ Hp Hb). Qed.

Lemma kmalloc_run alloc h n view :
  alloc h n ≠ NULL →
  kmalloc alloc n view h = Ok (alloc h n) (<[alloc h n := view]> h).
Proof. intros Hp. unfold kmalloc. by rewrite decide_False. Qed.

Lemma kmalloc_NULL alloc h n view :
  alloc h n = NULL → kmalloc alloc n view h = Ok NULL h.
Proof. intros Hp. unfold kmalloc. by rewrite decide_True. Qed.
End Runs.

(** * The sample allocators keep the contract *)

Section Allocators.
Context {T : Type}.
Implicit Types (h : gmap Z (block T)).

Lemma top_nonneg (l : list (Z * block T)) :
  0 ≤ foldr (λ kb top, Z.max kb.1 top) 0 l.
Proof. induction l as [|kb l IH]; cbn [foldr]; lia. Qed.

Lemma top_above (l : list (Z * block T)) k b :
  (k, b) ∈ l → k ≤ foldr (λ kb top, Z.max kb.1 top) 0 l.
Proof.
  induction l as [|kb l IH]; intros Hin; [by apply not_elem_of_nil in Hin|].
  cbn [foldr]. apply elem_of_cons in Hin as [<-|Hin]; [cbn [fst]; lia|].
  specialize (IH Hin). lia.
Qed.

Lemma bump_ok h n : bump h n ≠ NULL.
Proof. unfold bump, NULL. pose proof (top_nonneg (map_to_list h)). lia. Qed.

Lemma bump_fresh h n : bump h n = NULL ∨ h !! bump h n = None.
Proof.
  right. destruct (h !! bump h n) as [b|] eqn:E; [|done].
  apply elem_of_map_to_list, top_above in E. unfold bump in E. lia.
Qed.

Lemma exhausted_fresh h n : exhausted h n = NULL ∨ h !! exhausted h n = None.
Proof. by left. Qed.

Lemma one_block_fresh h n : one_block h n = NULL ∨ h !! one_block h n = None.
Proof. unfold one_block. case_decide as E; [right; by rewrite E | by left]. Qed.
End Allocators.

(** * Proof automation *)

(** Unfold the field updates and project. *)
Ltac fields :=
  unfold set_data, set_capacity, set_size; cbn [size capacity data data_size].
(** Side conditions of the run lemmas: disequalities of addresses, heap
    lookups, bounds. *)
Ltac side :=
  fields;
  first [ done | lia | by simplify_map_eq
        | progress rewrite ?length_app, ?length_take, ?length_drop,
            ?length_insert, ?length_replicate; lia
        | idtac ].

(** Run the first command of a sequence with the given lemma. *)
Tactic Notation "run_by" open_constr(lem) :=
  erewrite bind_run; [ | eapply lem; side ].

(** The conjuncts of [vec_at] at an explicit heap. *)
Ltac vec_side :=
  fields;
  first [ done | by simplify_map_eq
        | rewrite ?length_app, ?length_cons, ?length_nil, ?length_insert,
            ?length_replicate; unfold UINT32_MAX in *; lia ].

(** * One push, one pop *)

Lemma u32_small z : 0 ≤ z ≤ UINT32_MAX → u32 z = z.
Proof. unfold u32, UINT32_MAX. intros. by rewrite Z.mod_small by lia. Qed.

Section Push.
Context {T : Type}.
Variable alloc : gmap Z (block T) → Z → Z.
Implicit Types (h : gmap Z (block T)) (a : Z) (v : vector) (m : members)
  (cells : list (option T)) (x : T).

Lemma push_in_place h a v m cells x :
  vec_at h a v m cells → size v < capacity v →
  push_T_vector alloc a x h
  = Ok tt (<[a := Struct (set_size (size v + 1) v) m]>
             (<[data v := Array (<[Z.to_nat (size v) := Some x]> cells)]> h)).
Proof.
  intros (Ha & Hd & Hda & Hv & Hc & Hlen & Hs & Hcap) Hlt.
  unfold push_T_vector.
  run_by load_run. rewrite decide_False by lia.
  erewrite bind_run by reflexivity.
  run_by load_run. run_by write_run.
  run_by load_run.
  erewrite store_run; [ | done | by simplify_map_eq ].
  by rewrite u32_small by lia.
Qed.

Lemma push_growth h a v m cells x :
  let c' := Z.max 1 (capacity v * 2) in
  let d' := alloc h (c' * data_size v) in
  vec_at h a v m cells → size v = capacity v → capacity v < 2147483648 →
  d' ≠ NULL → h !! d' = None →
  push_T_vector alloc a x h
  = Ok tt (<[a := Struct (mk_vector (size v + 1) c' (data_size v) d') m]>
             (<[d' := Array (cells ++ Some x ::
                               replicate (Z.to_nat (c' - capacity v - 1)) None)]>
                (base.delete (data v) h))).
Proof.
  intros c' d' (Ha & Hd & Hda & Hv & Hc & Hlen & Hs & Hcap) Heq Hlt Hnull Hfresh.
  assert (d' ≠ a) by (intros ->; congruence).
  assert (d' ≠ data v) by (intros E; rewrite E in Hfresh; congruence).
  assert (Hc' : Z.max 1 (u32 (capacity v * 2)) = c').
  { unfold c'. rewrite u32_small; [done | unfold UINT32_MAX; lia]. }
  unfold push_T_vector.
  run_by load_run. rewrite decide_True by done.
  unfold vector_resize.
  erewrite bind_run; cycle 1.
  { run_by load_run. rewrite Hc'.
    erewrite bind_run by (by apply kmalloc_run).
    fold d'.
    run_by memcpy_run.
    run_by kfree_run. run_by load_run.
    eapply store_run; side. }
  run_by load_run. 
  run_by write_run.
  run_by load_run.
  erewrite store_run; side.
  rewrite u32_small by (unfold UINT32_MAX; lia).
  replace (Z.to_nat (size v)) with (length cells) by lia.
  rewrite take_ge, drop_replicate, insert_app_r_alt, Nat.sub_diag by lia.
  fold c'.
  replace (Z.to_nat c' - length cells)%nat
    with (S (Z.to_nat (c' - capacity v - 1))) by lia.
  cbn [replicate insert list_insert]. rewrite Heq. f_equal.
  apply map_eq; intros q.
  destruct (decide (q = a)) as [->|]; [by simplify_map_eq|].
  destruct (decide (q = d')) as [->|]; [by simplify_map_eq|].
  destruct (decide (q = data v)) as [->|]; by simplify_map_eq.
Qed.

Lemma push_outside h a v m cells x :
  vec_at h a v m cells → capacity v < size v →
  push_T_vector alloc a x h = Fault.
Proof.
  intros (Ha & Hd & Hda & Hv & Hc & Hlen & Hs & Hcap) Hlt.
  unfold push_T_vector.
  run_by load_run. rewrite decide_False by lia.
  erewrite bind_run by reflexivity.
  run_by load_run.
  apply bind_fault. eapply write_outside; side.
Qed.

Lemma push_growth_wraps h a v m cells x :
  (alloc h (Z.max 1 (u32 (capacity v * 2)) * data_size v) = NULL
   ∨ h !! alloc h (Z.max 1 (u32 (capacity v * 2)) * data_size v) = None) →
  vec_at h a v m cells → size v = capacity v → 2147483648 ≤ capacity v →
  push_T_vector alloc a x h = Fault.
Proof.
  intros Hfresh (Ha & Hd & Hda & Hv & Hc & Hlen & Hs & Hcap) Heq Hge.
  unfold push_T_vector.
  run_by load_run. rewrite decide_True by done.
  apply bind_fault. unfold vector_resize.
  run_by load_run.
  set (c' := Z.max 1 (u32 (capacity v * 2))) in *.
  assert (c' < size v).
  { unfold c', u32, UINT32_MAX in *.
    pose proof (Z.mod_pos_bound (capacity v * 2) 4294967296).
    assert (capacity v * 2 = 1 * 4294967296 + (capacity v * 2 - 4294967296)) as E by lia.
    rewrite E, Z.add_comm, Z_mod_plus_full, Z.mod_small; lia. }
  destruct (decide (alloc h (c' * data_size v) = NULL)) as [E|E].
  - erewrite bind_run by (by apply kmalloc_NULL). by apply bind_fault.
  - destruct Hfresh as [|Hfresh]; [done|].
    erewrite bind_run by (by apply kmalloc_run).
    assert (alloc h (c' * data_size v) ≠ data v)
      by (intros E'; rewrite E' in Hfresh; congruence).
    apply bind_fault. eapply memcpy_overflow; side.
Qed.

Lemma push_no_memory h a v m cells x :
  alloc h (Z.max 1 (u32 (capacity v * 2)) * data_size v) = NULL →
  vec_at h a v m cells → size v = capacity v →
  push_T_vector alloc a x h = Fault.
Proof.
  intros Hnull (Ha & Hd & Hda & Hv & Hc & Hlen & Hs & Hcap) Heq.
  unfold push_T_vector.
  run_by load_run. rewrite decide_True by done.
  apply bind_fault. unfold vector_resize.
  run_by load_run.
  erewrite bind_run by (by apply kmalloc_NULL). by apply bind_fault.
Qed.

Lemma pop_run h a v m cells :
  let s' := u32 (size v - 1) in
  vec_at h a v m cells →
  pop_T_vector a h
  = Ok (if decide (0 ≤ s' < Z.of_nat (length cells))
        then mjoin (cells !! Z.to_nat s') else None)
       (<[a := Struct (set_size s' v) m]> h).
Proof.
  intros s' (Ha & Hd & Hda & Hv & Hc & Hlen & Hs & Hcap).
  unfold pop_T_vector.
  run_by load_run. run_by store_run. run_by load_run.
  eapply read_run; side.
Qed.
End Push.

(** * The vector as a stack of elements *)

Section Stack.
Context {T : Type}.
Variable alloc : gmap Z (block T) → Z → Z.
Hypothesis alloc_fresh : ∀ h n, alloc h n = NULL ∨ h !! alloc h n = None.
Hypothesis alloc_ok : ∀ h n, alloc h n ≠ NULL.
Implicit Types (h : gmap Z (block T)) (a : Z) (v : vector) (m : members)
  (cells : list (option T)) (x : T) (xs : list T).

Lemma alloc_unused h n : h !! alloc h n = None.
Proof. by destruct (alloc_fresh h n) as [?%alloc_ok|]. Qed.

Lemma push_holds h a m c xs x :
  holds h a m c xs → Z.of_nat (length xs) < 2147483648 →
  ∃ h', push_T_vector alloc a x h = Ok tt h' ∧
        holds h' a m (next_capacity c (Z.of_nat (length xs))) (xs ++ [x]).
Proof.
  intros (v & cells & Hvec & Hsz & <- & Hle & Hxs) Hn.
  pose proof Hvec as (Ha & Hd & Hda & Hv & Hc & Hlen & Hs & Hcap).
  unfold next_capacity. rewrite <- Hsz. case_decide as Hfull.
  - set (c' := Z.max 1 (capacity v * 2)).
    set (d' := alloc h (c' * data_size v)).
    pose proof (alloc_unused h (c' * data_size v)) as Hfresh. fold d' in Hfresh.
    pose proof (alloc_ok h (c' * data_size v)) as Hnull. fold d' in Hnull.
    eexists. split.
    { apply push_growth; [done | done | lia | done | done]. }
    fold c' d'.
    assert (d' ≠ a) by (intros E; rewrite E in Hfresh; congruence).
    exists (mk_vector (size v + 1) c' (data_size v) d'), 
      (cells ++ Some x :: replicate (Z.to_nat (c' - capacity v - 1)) None).
    unfold vec_at; split_and!; try by vec_side.
    assert (length xs = length cells) as E by lia.
    rewrite E in Hxs. rewrite take_ge in Hxs by lia.
    rewrite length_app, length_cons, length_nil, E, fmap_app, <- Hxs.
    by rewrite take_app_add, firstn_cons, take_0.
  - eexists. split; [apply push_in_place; [done | lia]|].
    exists (set_size (size v + 1) v), (<[Z.to_nat (size v) := Some x]> cells).
    unfold vec_at; split_and!; try by vec_side.
    rewrite Hsz, Nat2Z.id, length_app, length_cons, length_nil, Nat.add_1_r.
    erewrite take_S_r.
    + by rewrite take_insert_ge, Hxs, fmap_app by lia.
    + apply list_lookup_insert_eq. lia.
Qed.

Lemma push_vec_at h a v m cells x :
  vec_at h a v m cells → size v ≤ capacity v →
  (size v = capacity v → capacity v < 2147483648) →
  ∃ h' v' cells',
    push_T_vector alloc a x h = Ok tt h' ∧ vec_at h' a v' m cells' ∧
    size v' = size v + 1 ∧
    capacity v' = next_capacity (capacity v) (size v) ∧
    data_size v' = data_size v ∧
    (∀ i, 0 ≤ i < size v → cells' !! Z.to_nat i = cells !! Z.to_nat i) ∧
    cells' !! Z.to_nat (size v) = Some (Some x) ∧
    (size v = capacity v → h !! data v' = None ∧ h' !! data v = None) ∧
    (size v < capacity v → data v' = data v).
Proof.
  intros Hvec Hle Hroom.
  pose proof Hvec as (Ha & Hd & Hda & Hv & Hc & Hlen & Hs & Hcap).
  unfold next_capacity. case_decide as Hfull.
  - set (c' := Z.max 1 (capacity v * 2)).
    set (d' := alloc h (c' * data_size v)).
    pose proof (alloc_unused h (c' * data_size v)) as Hfresh. fold d' in Hfresh.
    pose proof (alloc_ok h (c' * data_size v)) as Hnull. fold d' in Hnull.
    assert (d' ≠ a) by (intros E; rewrite E in Hfresh; congruence).
    assert (d' ≠ data v) by (intros E; rewrite E in Hfresh; congruence).
    eexists _, (mk_vector (size v + 1) c' (data_size v) d'),
      (cells ++ Some x :: replicate (Z.to_nat (c' - capacity v - 1)) None).
    split; [by apply push_growth; auto|]. fold c' d'.
    unfold vec_at; split_and!; try by vec_side.
    + intros i Hi. by rewrite lookup_app_l by lia.
    + rewrite lookup_app_r by lia.
      by replace (Z.to_nat (size v) - length cells)%nat with 0%nat by lia.
  - eexists _, (set_size (size v + 1) v), (<[Z.to_nat (size v) := Some x]> cells).
    split; [apply push_in_place; [done | lia]|].
    unfold vec_at; split_and!; try by vec_side.
    + intros i Hi. rewrite list_lookup_insert_ne; [done | lia].
    + apply list_lookup_insert_eq. lia.
Qed.

Lemma pop_vec_at h a v m cells :
  vec_at h a v m cells →
  vec_at (<[a := Struct (set_size (u32 (size v - 1)) v) m]> h) a
         (set_size (u32 (size v - 1)) v) m cells.
Proof.
  intros (Ha & Hd & Hda & Hv & Hc & Hlen & Hs & Hcap).
  pose proof (Z.mod_pos_bound (size v - 1) 4294967296).
  unfold vec_at; split_and!; try by vec_side.
  all: fields; unfold u32, UINT32_MAX; lia.
Qed.

Lemma pop_holds h a m c xs x :
  holds h a m c (xs ++ [x]) →
  ∃ h', pop_T_vector a h = Ok (Some x) h' ∧ holds h' a m c xs.
Proof.
  intros (v & cells & Hvec & Hsz & <- & Hle & Hxs).
  pose proof Hvec as (Ha & Hd & Hda & Hv & Hc & Hlen & Hs & Hcap).
  rewrite length_app, length_cons, length_nil, Nat.add_1_r in Hsz, Hxs.
  assert (u32 (size v - 1) = Z.of_nat (length xs)) as Hs'
    by (rewrite u32_small; lia).
  assert (cells !! length xs = Some (Some x)) as Hx.
  { rewrite <- (lookup_take_lt _ (S (length xs))), Hxs by lia.
    rewrite list_lookup_fmap, lookup_app_r, Nat.sub_diag by lia. done. }
  eexists. split.
  - rewrite (pop_run _ _ _ _ _ Hvec), Hs', Nat2Z.id, Hx.
    by rewrite decide_True by lia.
  - exists (set_size (Z.of_nat (length xs)) v), cells.
    unfold vec_at; split_and!; try by vec_side.
    apply (f_equal (take (length xs))) in Hxs.
    rewrite take_take, Nat.min_l in Hxs by lia.
    by rewrite Hxs, fmap_app, take_app_length' by (by rewrite length_fmap).
Qed.

Lemma push_all_holds xs : ∀ h a m c ys,
  holds h a m c ys → Z.of_nat (length ys + length xs) ≤ 2147483648 →
  ∃ h' c', push_all alloc a xs h = Ok tt h' ∧ holds h' a m c' (ys ++ xs).
Proof.
  induction xs as [|x xs IH]; intros h a m c ys Hh Hn.
  - exists h, c. by rewrite app_nil_r.
  - cbn [length] in Hn.
    destruct (push_holds h a m c ys x Hh) as (h1 & E1 & Hh1); [lia|].
    destruct (IH _ _ _ _ _ Hh1) as (h2 & c2 & E2 & Hh2).
    { rewrite length_app, length_cons, length_nil. lia. }
    rewrite <- (assoc_L (++)) in Hh2.
    exists h2, c2. cbn [push_all].
    by rewrite (bind_run _ _ _ _ _ E1).
Qed.

Lemma pop_n_holds xs : ∀ h a m c ys,
  holds h a m c (ys ++ xs) →
  ∃ h', pop_n a (length xs) h = Ok (Some <$> reverse xs) h' ∧ holds h' a m c ys.
Proof.
  induction xs as [|x xs IH] using rev_ind; intros h a m c ys Hh.
  - exists h. by rewrite app_nil_r in Hh.
  - rewrite (assoc_L (++)) in Hh.
    destruct (pop_holds _ _ _ _ _ _ Hh) as (h1 & E1 & Hh1).
    destruct (IH _ _ _ _ _ Hh1) as (h2 & E2 & Hh2).
    exists h2. split; [|done].
    rewrite length_app, length_cons, length_nil, Nat.add_1_r. cbn [pop_n].
    rewrite (bind_run _ _ _ _ _ E1), (bind_run _ _ _ _ _ E2).
    by rewrite reverse_app.
Qed.

Lemma reachable_inv (new : M T Z) m0 :
  (∀ h0 a h, new h0 = Ok a h →
             ∃ v cells, vec_at h a v m0 cells ∧ capacity v = 1) →
  ∀ h a, reachable new (push_T_vector alloc) pop_T_vector h a →
         ∃ v cells k, vec_at h a v m0 cells ∧ 0 ≤ k ≤ 31 ∧ capacity v = 2 ^ k.
Proof.
  intros Hnew h a Hreach.
  induction Hreach as [h0 a h E|h a x h' _ IH E|h a r h' _ IH E].
  - destruct (Hnew _ _ _ E) as (v & cells & Hvec & Hcap).
    exists v, cells, 0. by rewrite Hcap.
  - destruct IH as (v & cells & k & Hvec & Hk & Hcap).
    destruct (decide (capacity v < size v)) as [Hout|Hle].
    { by rewrite (push_outside _ _ _ _ _ _ _ Hvec Hout) in E. }
    destruct (decide (size v = capacity v ∧ 2147483648 ≤ capacity v))
      as [[Hfull Hbig]|Hroom].
    { by rewrite (push_growth_wraps _ _ _ _ _ _ _ (alloc_fresh _ _)
                    Hvec Hfull Hbig) in E. }
    destruct (push_vec_at h a v m0 cells x Hvec) as
      (h'' & v' & cells' & E' & Hvec' & _ & Hcap' & _); [lia | lia |].
    rewrite E' in E. injection E as <-.
    exists v', cells'. unfold next_capacity in Hcap'. case_decide as Hfull.
    + exists (k + 1). split; [done|]. 
      assert (k < 31).
      { apply (Z.pow_lt_mono_r_iff 2); [lia | lia |].
        rewrite <- Hcap. change (2 ^ 31) with 2147483648. lia. }
      rewrite Hcap', Hcap, Z.pow_add_r, Z.pow_1_r by lia.
      pose proof (Z.pow_pos_nonneg 2 k). lia.
    + exists k. by rewrite Hcap'.
  - destruct IH as (v & cells & k & Hvec & Hk & Hcap).
    rewrite (pop_run _ _ _ _ _ Hvec) in E. injection E as _ <-.
    exists (set_size (u32 (size v - 1)) v), cells, k.
    split; [by apply pop_vec_at | done].
Qed.
End Stack.

(** * Construction *)

Section New.
Context {T : Type}.
Variable alloc : gmap Z (block T) → Z → Z.
Implicit Types (h : gmap Z (block T)) (a : Z) (v : vector) (m : members).

Lemma new_vector_run h0 vsz sz :
  let a := alloc h0 vsz in
  let h1 := <[a := Struct (mk_vector 0 DEFAULT_CAPACITY sz NULL) no_members]> h0 in
  let d := alloc h1 (DEFAULT_CAPACITY * sz) in
  a ≠ NULL → d ≠ NULL → d ≠ a →
  new_vector alloc vsz sz h0
  = Ok a (<[a := Struct (mk_vector 0 DEFAULT_CAPACITY sz d) no_members]>
            (<[d := Array [None]]> h0)).
Proof.
  intros a h1 d Ha Hd Hda. unfold new_vector.
  erewrite bind_run by (by apply kmalloc_run). fold a.
  run_by store_raw_run. rewrite insert_insert_eq. fold h1.
  erewrite bind_run by (by apply kmalloc_run). fold d.
  assert (<[d := Array (replicate (Z.to_nat DEFAULT_CAPACITY) None)]> h1 !! a
          = Some (Struct (mk_vector 0 DEFAULT_CAPACITY sz NULL) no_members)) as Hl.
  { rewrite lookup_insert_ne by done. apply lookup_insert_eq. }
  erewrite bind_run by (by eapply load_run).
  erewrite bind_run by (by eapply store_run).
  unfold mret, M_ret. f_equal. fields. unfold h1.
  apply map_eq; intros q.
  destruct (decide (q = a)) as [->|]; [by simplify_map_eq|].
  destruct (decide (q = d)) as [->|]; by simplify_map_eq.
Qed.

Lemma new_vector_no_memory h0 vsz sz :
  alloc h0 vsz = NULL → new_vector alloc vsz sz h0 = Fault.
Proof.
  intros E. unfold new_vector.
  erewrite bind_run by (by apply kmalloc_NULL). by apply bind_fault.
Qed.

Lemma new_T_vector_run sizeof_T sizeof_T_vector h0 :
  let a := alloc h0 sizeof_T_vector in
  let h1 := <[a := Struct (mk_vector 0 DEFAULT_CAPACITY sizeof_T NULL) no_members]> h0 in
  let d := alloc h1 (DEFAULT_CAPACITY * sizeof_T) in
  a ≠ NULL → d ≠ NULL → d ≠ a →
  new_T_vector alloc sizeof_T sizeof_T_vector h0
  = Ok a (<[a := Struct (mk_vector 0 DEFAULT_CAPACITY sizeof_T d) value_members]>
            (<[d := Array [None]]> h0)).
Proof.
  intros a h1 d Ha Hd Hda. unfold new_T_vector, new_T_vector_with.
  erewrite bind_run by (by apply new_vector_run). fold a h1 d.
  do 3 (run_by load_members_run; run_by store_members_run).
  unfold mret, M_ret. f_equal.
  by rewrite !insert_insert_eq.
Qed.
End New.

(** * Powers of two *)

Lemma pow2_ceil_bounds n :
  1 < n → 2 ^ (Z.log2_up n - 1) < n ≤ pow2_ceil n.
Proof.
  intros Hn. unfold pow2_ceil.
  pose proof (Z.log2_up_spec n Hn) as Hs.
  by rewrite <- Z.sub_1_r in Hs.
Qed.

Lemma next_capacity_pow2 n :
  0 ≤ n → next_capacity (pow2_ceil n) n = pow2_ceil (n + 1).
Proof.
  intros Hn. unfold next_capacity.
  destruct (decide (n = 0)) as [->|]; [done|].
  destruct (decide (n = 1)) as [->|]; [done|].
  pose proof (pow2_ceil_bounds n) as Hb.
  pose proof (Z.log2_up_pos n) as Hk.
  unfold pow2_ceil in *. set (k := Z.log2_up n) in *.
  case_decide as E.
  - rewrite (Z.log2_up_unique (n + 1) (k + 1)).
    + rewrite Z.pow_add_r, Z.pow_1_r by lia. clearbody k. lia.
    + lia.
    + replace (Z.pred (k + 1)) with k by lia.
      rewrite Z.pow_add_r, Z.pow_1_r by lia. clearbody k. lia.
  - rewrite (Z.log2_up_unique (n + 1) k); [done | lia |].
    rewrite <- Z.sub_1_r. clearbody k. lia.
Qed.

Lemma pow2_ceil_least n :
  0 ≤ n →
  0 ≤ Z.log2_up n ∧ n ≤ pow2_ceil n ∧
  ∀ j, 0 ≤ j → n ≤ 2 ^ j → Z.log2_up n ≤ j.
Proof.
  intros Hn. split; [apply Z.log2_up_nonneg|].
  destruct (decide (n ≤ 1)) as [Hle|Hgt].
  - rewrite Z.log2_up_eqn0 by done. unfold pow2_ceil.
    rewrite Z.log2_up_eqn0 by done. split; [simpl; lia | done].
  - split; [apply pow2_ceil_bounds; lia|].
    intros j Hj Hnj.
    destruct (decide (Z.log2_up n ≤ j)) as [|Hlt]; [done|].
    pose proof (pow2_ceil_bounds n) as Hb.
    assert (2 ^ j ≤ 2 ^ (Z.log2_up n - 1)) by (apply Z.pow_le_mono_r; lia).
    lia.
Qed.

(** * The laws of push and pop *)

Section Laws.
Context {T : Type}.
Variable alloc : gmap Z (block T) → Z → Z.
Variables sizeof_T sizeof_T_vector : Z.
Hypothesis alloc_fresh : ∀ h n, alloc h n = NULL ∨ h !! alloc h n = None.
Hypothesis alloc_ok : ∀ h n, alloc h n ≠ NULL.
Implicit Types (h : gmap Z (block T)) (a : Z) (v : vector) (m : members)
  (cells : list (option T)) (x : T) (xs : list T).

Lemma new_T_vector_holds h0 :
  ∃ a h1, new_T_vector alloc sizeof_T sizeof_T_vector h0 = Ok a h1 ∧
          holds h1 a value_members 1 [] ∧
          h0 !! a = None ∧
          ∃ d, h0 !! d = None ∧
               vec_at h1 a (mk_vector 0 1 sizeof_T d) value_members [None].
Proof.
  set (a := alloc h0 sizeof_T_vector).
  set (h1 := <[a := Struct (mk_vector 0 DEFAULT_CAPACITY sizeof_T NULL) no_members]> h0).
  set (d := alloc h1 (DEFAULT_CAPACITY * sizeof_T)).
  pose proof (alloc_unused alloc alloc_fresh alloc_ok h0 sizeof_T_vector) as Ha.
  pose proof (alloc_unused alloc alloc_fresh alloc_ok h1 (DEFAULT_CAPACITY * sizeof_T)) as Hd.
  fold a in Ha. fold d in Hd.
  assert (a ≠ NULL) by apply alloc_ok.
  assert (d ≠ NULL) by apply alloc_ok.
  assert (d ≠ a) by (intros E; rewrite E in Hd; unfold h1 in Hd; by simplify_map_eq).
  assert (h0 !! d = None).
  { unfold h1 in Hd. by rewrite lookup_insert_ne in Hd. }
  assert (vec_at (<[a := Struct (mk_vector 0 DEFAULT_CAPACITY sizeof_T d) value_members]>
                    (<[d := Array [None]]> h0))
                 a (mk_vector 0 1 sizeof_T d) value_members [None]) as Hvec.
  { unfold vec_at; split_and!; try by vec_side. }
  eexists a, _. split; [by apply new_T_vector_run|].
  split; [|split; [done|by exists d]].
  by eexists _, _.
Qed.

Lemma push_all_doubling xs : ∀ h a m ys,
  holds h a m (pow2_ceil (Z.of_nat (length ys))) ys →
  Z.of_nat (length ys + length xs) ≤ 2147483648 →
  ∃ h', push_all alloc a xs h = Ok tt h' ∧
        holds h' a m (pow2_ceil (Z.of_nat (length (ys ++ xs)))) (ys ++ xs).
Proof.
  induction xs as [|x xs IH]; intros h a m ys Hh Hn.
  - exists h. by rewrite app_nil_r.
  - cbn [length] in Hn.
    destruct (push_holds alloc alloc_fresh alloc_ok h a m _ ys x Hh)
      as (h1 & E1 & Hh1); [lia|].
    rewrite next_capacity_pow2 in Hh1 by lia.
    replace (Z.of_nat (length ys) + 1) with (Z.of_nat (length (ys ++ [x]))) in Hh1
      by (rewrite length_app, length_cons, length_nil; lia).
    destruct (IH _ _ _ _ Hh1) as (h2 & E2 & Hh2).
    { rewrite length_app, length_cons, length_nil. lia. }
    rewrite <- (assoc_L (++)) in Hh2.
    exists h2. cbn [push_all].
    by rewrite (bind_run _ _ _ _ _ E1).
Qed.

Lemma push_all_app xs1 xs2 a h :
  push_all alloc a (xs1 ++ xs2) h
  = (push_all alloc a xs1 ≫= λ _, push_all alloc a xs2) h.
Proof.
  revert h. induction xs1 as [|x xs1 IH]; intros h; [done|].
  cbn [app push_all]. unfold mbind, M_bind in *.
  destruct (push_T_vector alloc a x h); [apply IH | done].
Qed.

Lemma overlong_push_faults h0 xs x :
  Z.of_nat (length xs) = 2147483648 →
  (vect ← new_T_vector alloc sizeof_T sizeof_T_vector;
   push_all alloc vect (xs ++ [x])) h0 = Fault.
Proof.
  intros Hlen.
  destruct (new_T_vector_holds h0) as (a & h1 & E1 & Hh1 & _).
  rewrite (bind_run _ _ _ _ _ E1), push_all_app.
  destruct (push_all_doubling xs h1 a value_members [] Hh1) as (h2 & E2 & Hh2).
  { cbn [length]. lia. }
  rewrite (bind_run _ _ _ _ _ E2). cbn [push_all app] in *.
  rewrite Hlen in Hh2. destruct Hh2 as (v & cells & Hvec & Hsz & Hcap & _).
  change (pow2_ceil 2147483648) with 2147483648 in Hcap.
  apply bind_fault.
  eapply push_growth_wraps; [apply alloc_fresh | done | lia | lia].
Qed.

Lemma run_ops_holds ops : ∀ h a m c xs,
  holds h a m c xs → within_contract (Z.of_nat (length xs)) ops = true →
  ∃ snaps h', run_ops alloc a ops h = Ok snaps h' ∧
              length snaps = length ops ∧
              Forall (λ v, 0 ≤ size v ≤ capacity v) snaps.
Proof.
  induction ops as [|[x|] ops IH]; intros h a m c xs Hh Hok.
  - by exists [], h.
  - cbn [within_contract] in Hok.
    apply andb_prop in Hok as [Hn%bool_decide_eq_true Hok].
    destruct (push_holds alloc alloc_fresh alloc_ok h a m c xs x Hh)
      as (h1 & E1 & Hh1); [done|].
    destruct (IH h1 a m _ _ Hh1) as (snaps & h2 & E2 & Hlen & Hall).
    { by rewrite length_app, length_cons, length_nil, Nat2Z.inj_add. }
    destruct Hh1 as (v & cells & Hvec & Hsz & Hcap & Hle & _).
    pose proof Hvec as (Ha & _ & _ & Hv & _).
    exists (v :: snaps), h2. cbn [run_ops run_op].
    rewrite (bind_run _ _ _ _ _ E1).
    rewrite (bind_run _ _ _ _ _ (load_run _ _ _ _ Ha Hv)).
    rewrite (bind_run _ _ _ _ _ E2).
    split; [done|]. split; [by rewrite !length_cons, Hlen|].
    constructor; [lia | done].
  - cbn [within_contract] in Hok.
    apply andb_prop in Hok as [Hn%bool_decide_eq_true Hok].
    destruct xs as [|x xs _] using rev_ind; [cbn [length] in Hn; lia|].
    destruct (pop_holds h a m c xs x Hh) as (h1 & E1 & Hh1).
    destruct (IH h1 a m _ _ Hh1) as (snaps & h2 & E2 & Hlen & Hall).
    { rewrite length_app, length_cons, length_nil in Hok.
      by replace (Z.of_nat (length xs)) with (Z.of_nat (length xs + 1) - 1) by lia. }
    destruct Hh1 as (v & cells & Hvec & Hsz & Hcap & Hle & _).
    pose proof Hvec as (Ha & _ & _ & Hv & _).
    exists (v :: snaps), h2. cbn [run_ops run_op].
    erewrite bind_run by (by erewrite bind_run by apply E1).
    rewrite (bind_run _ _ _ _ _ (load_run _ _ _ _ Ha Hv)).
    rewrite (bind_run _ _ _ _ _ E2).
    split; [done|]. split; [by rewrite !length_cons, Hlen|].
    constructor; [lia | done].
Qed.

(** C1 (as amended).  Doubling law: starting from a freshly constructed
    vector, pushing [n] elements with [n ≤ 2^31] (and an allocator that
    satisfies every request) leaves [size = n] and [capacity] equal to
    the smallest power of two that is at least [n]; for [n = 0] the
    capacity stays 1. *)
Theorem doubling_law h0 xs :
  Z.of_nat (length xs) ≤ 2147483648 →
  ∃ a h1 h2 v m k,
    new_T_vector alloc sizeof_T sizeof_T_vector h0 = Ok a h1 ∧
    push_all alloc a xs h1 = Ok tt h2 ∧
    h2 !! a = Some (Struct v m) ∧
    size v = Z.of_nat (length xs) ∧
    capacity v = 2 ^ k ∧ 0 ≤ k ∧ Z.of_nat (length xs) ≤ 2 ^ k ∧
    (∀ j, 0 ≤ j → Z.of_nat (length xs) ≤ 2 ^ j → k ≤ j) ∧
    (xs = [] → capacity v = 1).
Proof.
  intros Hn.
  destruct (new_T_vector_holds h0) as (a & h1 & E1 & Hh1 & _).
  destruct (push_all_doubling xs h1 a value_members [] Hh1)
    as (h2 & E2 & v & cells & Hvec & Hsz & Hcap & _); [cbn [length]; lia|].
  cbn [app] in *.
  destruct (pow2_ceil_least (Z.of_nat (length xs))) as (Hk & Hle & Hleast); [lia|].
  exists a, h1, h2, v, value_members, (Z.log2_up (Z.of_nat (length xs))).
  split_and!; try done.
  - apply Hvec.
  - intros ->. by rewrite Hcap.
Qed.

(** C2 (as amended).  Stack law: pushing [x1 .. xk] into a vector that
    holds [ys] and then popping [k] times returns [xk .. x1] in that
    order, provided the vector never holds more than 2^31 elements (and
    the allocator satisfies every request). *)
Theorem stack_law h a m c ys xs :
  holds h a m c ys →
  Z.of_nat (length ys + length xs) ≤ 2147483648 →
  ∃ h1 h2,
    push_all alloc a xs h = Ok tt h1 ∧
    pop_n a (length xs) h1 = Ok (Some <$> reverse xs) h2.
Proof.
  intros Hh Hn.
  destruct (push_all_holds alloc alloc_fresh alloc_ok xs h a m c ys Hh Hn)
    as (h1 & c1 & E1 & Hh1).
  destruct (pop_n_holds xs h1 a m c1 ys Hh1) as (h2 & E2 & _).
  by exists h1, h2.
Qed.

(** C3 (as amended).  Capacity invariant: for every sequence of pushes
    and pops applied to a freshly constructed vector that never pops
    from an empty vector and never holds more than 2^31 elements,
    [0 ≤ size ≤ capacity] holds after every push and after every pop. *)
Theorem capacity_invariant h0 ops :
  within_contract 0 ops = true →
  ∃ a h1 snaps h2,
    new_T_vector alloc sizeof_T sizeof_T_vector h0 = Ok a h1 ∧
    run_ops alloc a ops h1 = Ok snaps h2 ∧
    length snaps = length ops ∧
    Forall (λ v, 0 ≤ size v ≤ capacity v) snaps.
Proof.
  intros Hok.
  destruct (new_T_vector_holds h0) as (a & h1 & E1 & Hh1 & _).
  destruct (run_ops_holds ops h1 a value_members 1 [] Hh1 Hok)
    as (snaps & h2 & E2 & Hlen & Hall).
  by exists a, h1, snaps, h2.
Qed.

(** C6 (as amended).  Growth preserves contents: for a vector with
    [size = capacity < 2^31] (and an allocator that satisfies the
    request), the push moves the vector to a fresh buffer of
    [max(1, capacity * 2)] slots, releases the old one, leaves every
    slot below the old [size] as it was, and stores the new value in
    slot [size]. *)
Theorem growth_preserves_contents h a v m cells x :
  vec_at h a v m cells → size v = capacity v → capacity v < 2147483648 →
  ∃ h' v' cells',
    push_T_vector alloc a x h = Ok tt h' ∧
    vec_at h' a v' m cells' ∧
    size v' = size v + 1 ∧
    capacity v' = Z.max 1 (capacity v * 2) ∧ capacity v < capacity v' ∧
    h !! data v' = None ∧ h' !! data v = None ∧
    (∀ i, 0 ≤ i < size v → cells' !! Z.to_nat i = cells !! Z.to_nat i) ∧
    cells' !! Z.to_nat (size v) = Some (Some x).
Proof.
  intros Hvec Hfull Hsmall.
  destruct (push_vec_at alloc alloc_fresh alloc_ok h a v m cells x Hvec)
    as (h' & v' & cells' & E & Hvec' & Hsz & Hcap & _ & Hold & Hnew & Hbuf & _);
    [lia | done |].
  destruct (Hbuf Hfull) as [Hfresh Hfreed].
  assert (capacity v' = Z.max 1 (capacity v * 2)) as Hcap'
    by (by rewrite Hcap; unfold next_capacity; rewrite decide_True).
  destruct Hvec as (_ & _ & _ & _ & _ & Hlen & _).
  exists h', v', cells'. split_and!; try done. lia.
Qed.

(** C9.  Pop on an empty vector: for a vector built by the constructor
    and used through push and pop, if [size = 0] then pop performs no
    check and raises no error; it stores [size - 1] modulo 2^32, that
    is 4294967295, into [size], and [size ≤ capacity] no longer holds.
    The value it returns is read outside the buffer. *)
Theorem pop_on_empty_underflows h a v m :
  reachable (new_T_vector alloc sizeof_T sizeof_T_vector)
            (push_T_vector alloc) pop_T_vector h a →
  h !! a = Some (Struct v m) → size v = 0 →
  ∃ h' v',
    pop_T_vector a h = Ok None h' ∧
    h' !! a = Some (Struct v' m) ∧
    size v' = u32 (size v - 1) ∧ size v' = 4294967295 ∧
    capacity v' = capacity v ∧
    ¬ (size v' ≤ capacity v').
Proof.
  intros Hreach Hv Hempty.
  destruct (reachable_inv alloc alloc_fresh alloc_ok
              (new_T_vector alloc sizeof_T sizeof_T_vector) value_members)
    with (h := h) (a := a) as (v0 & cells & k & Hvec & Hk & Hcap); [|done|].
  { intros h0 a0 h1 E.
    destruct (new_T_vector_holds h0) as (a1 & h2 & E1 & _ & _ & d & _ & Hvec).
    rewrite E1 in E. injection E as <- <-. by eexists _, _. }
  pose proof Hvec as (Ha & Hd & Hda & Hv0 & Hc & Hlen & Hs & Hcapmax).
  rewrite Hv in Hv0. injection Hv0 as <- ->.
  assert (capacity v ≤ 2147483648).
  { rewrite Hcap. change 2147483648 with (2 ^ 31). apply Z.pow_le_mono_r; lia. }
  eexists _, (set_size (u32 (size v - 1)) v).
  rewrite (pop_run _ _ _ _ _ Hvec), Hempty.
  change (u32 (0 - 1)) with 4294967295.
  rewrite decide_False by lia.
  split_and!; fields; try done; [by simplify_map_eq | lia].
Qed.

(** C10.  Pop/push round trip: for a vector with [1 ≤ size ≤ capacity]
    whose last element is [x], popping returns [x] and leaves
    [size < capacity], so pushing [x] back does not grow the vector and
    restores the heap exactly as it was: same size, same capacity, same
    buffer with the same elements. *)
Theorem pop_push_roundtrip h a v m cells x :
  vec_at h a v m cells → 1 ≤ size v ≤ capacity v →
  cells !! Z.to_nat (size v - 1) = Some (Some x) →
  ∃ h1 v1,
    pop_T_vector a h = Ok (Some x) h1 ∧
    h1 !! a = Some (Struct v1 m) ∧ size v1 < capacity v1 ∧
    push_T_vector alloc a x h1 = Ok tt h.
Proof.
  intros Hvec Hsz Hx.
  pose proof Hvec as (Ha & Hd & Hda & Hv & Hc & Hlen & Hs & Hcap).
  assert (u32 (size v - 1) = size v - 1) as Hdec by (apply u32_small; lia).
  pose proof (pop_vec_at _ _ _ _ _ Hvec) as Hvec1. rewrite Hdec in Hvec1.
  exists (<[a := Struct (set_size (size v - 1) v) m]> h), (set_size (size v - 1) v).
  split_and!.
  - rewrite (pop_run _ _ _ _ _ Hvec), Hdec, Hx. by rewrite decide_True by lia.
  - by simplify_map_eq.
  - fields. lia.
  - rewrite (push_in_place alloc _ _ _ _ _ x Hvec1) by (fields; lia).
    fields. f_equal.
    rewrite list_insert_id by done.
    replace (size v - 1 + 1) with (size v) by lia.
    apply map_eq; intros q.
    destruct (decide (q = a)) as [->|].
    { rewrite lookup_insert_eq, Hv. by destruct v. }
    destruct (decide (q = data v)) as [->|]; by simplify_map_eq.
Qed.
End Laws.


(** * Pointer vectors *)

Section PtrRuns.
Variable alloc : gmap Z (block Z) → Z → Z.
Implicit Types (h : gmap Z (block Z)) (a : Z) (v : vector) (m : members)
  (cells : list (option Z)) (ps : list Z).

(** The pointer variant pushes and pops with the same code as the value
    variant, at element type "address". *)
Lemma push_T_ptr_vector_eq : push_T_ptr_vector alloc = push_T_vector alloc.
Proof. reflexivity. Qed.

Lemma pop_T_ptr_vector_eq : pop_T_ptr_vector = pop_T_vector.
Proof. reflexivity. Qed.

Lemma pop_ptr_n_eq a k : pop_ptr_n a k = pop_n a k.
Proof. induction k as [|k IH]; [done|]. cbn [pop_ptr_n pop_n]. by rewrite IH. Qed.

Lemma lookup_free_all ps : ∀ h q,
  free_all ps h !! q = if decide (q ∈ ps) then None else h !! q.
Proof.
  induction ps as [|p ps IH]; intros h q; cbn [free_all foldl].
  - by rewrite decide_False by apply not_elem_of_nil.
  - fold (free_all ps (base.delete p h)). rewrite IH.
    destruct (decide (q = p)) as [->|Hne].
    + rewrite lookup_delete_eq, (decide_True _ _ (list_elem_of_here _ _)).
      by case_decide.
    + rewrite lookup_delete_ne by done.
      case_decide as Hin.
      * by rewrite decide_True by (by apply list_elem_of_further).
      * rewrite decide_False; [done|].
        intros [?|?]%elem_of_cons; congruence.
Qed.

Lemma free_referents_run ps : ∀ h i a v m cells,
  a ≠ NULL → data v ≠ NULL →
  h !! a = Some (Struct v m) → h !! data v = Some (Array cells) →
  0 ≤ i → size v = i + Z.of_nat (length ps) →
  size v ≤ Z.of_nat (length cells) →
  (∀ j p, ps !! j = Some p → cells !! (Z.to_nat i + j)%nat = Some (Some p)) →
  NoDup ps →
  (∀ p, p ∈ ps → p ≠ NULL ∧ p ≠ a ∧ p ≠ data v ∧ is_Some (h !! p)) →
  free_referents (length ps) a i h = Ok tt (free_all ps h).
Proof.
  induction ps as [|p ps IH];
    intros h i a v m cells Ha Hd Hv Hc Hi Hsz Hlen Hcells Hnodup Hlive.
  - cbn [length free_referents free_all foldl] in *.
    run_by load_run. by rewrite decide_False by lia.
  - cbn [length free_referents free_all foldl] in *.
    run_by load_run. rewrite decide_True by lia.
    run_by load_run. run_by read_run. rewrite decide_True by lia.
    rewrite <- (Nat.add_0_r (Z.to_nat i)), (Hcells 0%nat p eq_refl). cbn [mjoin].
    destruct (Hlive p) as (Hp & Hpa & Hpd & [b Hb]); [apply list_elem_of_here|].
    erewrite bind_run by (by eapply kfree_run).
    apply NoDup_cons in Hnodup as [Hnotin Hnodup].
    apply (IH _ _ _ v m cells); try done; try lia.
    + by rewrite lookup_delete_ne.
    + by rewrite lookup_delete_ne.
    + intros j q Hj. 
      replace (Z.to_nat (i + 1) + j)%nat with (Z.to_nat i + S j)%nat by lia.
      by apply Hcells.
    + intros q Hq. destruct (Hlive q) as (? & ? & ? & ?);
        [by apply list_elem_of_further|].
      split_and!; try done.
      rewrite lookup_delete_ne; [done|]. by intros ->.
Qed.

Lemma delete_vector_run {T} (g : gmap Z (block T)) a v m (cs : list (option T)) :
  vec_at g a v m cs →
  delete_vector a g = Ok tt (base.delete a (base.delete (data v) g)).
Proof.
  intros (Ha & Hd & Hda & Hv & Hc & _).
  unfold delete_vector. run_by load_run. run_by kfree_run.
  eapply kfree_run; side.
Qed.

Lemma delete_borrowing h a v m cells :
  vec_at h a v m cells → own_ptrs m = Some false →
  delete_T_ptr_vector a h = Ok tt (base.delete a (base.delete (data v) h)).
Proof.
  intros Hvec Hown. pose proof Hvec as (Ha & Hd & Hda & Hv & Hc & _).
  unfold delete_T_ptr_vector. run_by load_members_run. rewrite Hown.
  erewrite bind_run by reflexivity.
  by eapply delete_vector_run.
Qed.

Lemma delete_owning h a v m cells ps :
  vec_at h a v m cells → own_ptrs m = Some true →
  size v ≤ capacity v →
  take (Z.to_nat (size v)) cells = Some <$> ps →
  NoDup ps →
  (∀ p, p ∈ ps → p ≠ NULL ∧ p ≠ a ∧ p ≠ data v ∧ is_Some (h !! p)) →
  delete_T_ptr_vector a h
  = Ok tt (base.delete a (base.delete (data v) (free_all ps h))).
Proof.
  intros Hvec Hown Hle Hps Hnodup Hlive.
  pose proof Hvec as (Ha & Hd & Hda & Hv & Hc & Hlen & Hs & Hcap).
  assert (length ps = Z.to_nat (size v)) as Hn.
  { apply (f_equal length) in Hps.
    rewrite length_take, length_fmap in Hps. lia. }
  unfold delete_T_ptr_vector. run_by load_members_run. rewrite Hown.
  erewrite bind_run; cycle 1.
  { run_by load_run. rewrite <- Hn.
    apply (free_referents_run ps h 0 a v m cells); try done; try lia.
    intros j p Hj. change (Z.to_nat 0 + j)%nat with j.
    rewrite <- (lookup_take_lt _ (Z.to_nat (size v))) by (apply lookup_lt_Some in Hj; lia).
    by rewrite Hps, list_lookup_fmap, Hj. }
  assert (vec_at (free_all ps h) a v m cells) as Hvec'.
  { unfold vec_at; split_and!; try (by vec_side).
    - rewrite lookup_free_all, decide_False; [done|].
      intros Hin. by destruct (Hlive a Hin) as (_ & ? & _).
    - rewrite lookup_free_all, decide_False; [done|].
      intros Hin. by destruct (Hlive _ Hin) as (_ & _ & ? & _). }
  by eapply delete_vector_run.
Qed.

Lemma new_T_ptr_vector_run sizeof_ptr sizeof_T_ptr_vector own h0 :
  let a := alloc h0 sizeof_T_ptr_vector in
  let h1 := <[a := Struct (mk_vector 0 DEFAULT_CAPACITY sizeof_ptr NULL) no_members]> h0 in
  let d := alloc h1 (DEFAULT_CAPACITY * sizeof_ptr) in
  a ≠ NULL → d ≠ NULL → d ≠ a →
  new_T_ptr_vector alloc sizeof_ptr sizeof_T_ptr_vector own h0
  = Ok a (<[a := Struct (mk_vector 0 DEFAULT_CAPACITY sizeof_ptr d) (ptr_members own)]>
            (<[d := Array [None]]> h0)).
Proof.
  intros a h1 d Ha Hd Hda. unfold new_T_ptr_vector, new_T_ptr_vector_with.
  erewrite bind_run by (by apply new_vector_run). fold a h1 d.
  do 4 (run_by load_members_run; run_by store_members_run).
  unfold mret, M_ret. f_equal.
  by rewrite !insert_insert_eq.
Qed.
End PtrRuns.

(** * Pop, in both variants *)

Section PopPost.
Context {T : Type}.
Variable alloc : gmap Z (block T) → Z → Z.
Implicit Types (h : gmap Z (block T)) (a : Z) (v : vector) (m : members)
  (cells : list (option T)).

Lemma pop_post_holds h a v m cells :
  vec_at h a v m cells → 0 < size v →
  pop_post (pop_T_vector a) (push_T_vector alloc a) h a v m cells.
Proof.
  intros Hvec Hpos.
  pose proof Hvec as (Ha & Hd & Hda & Hv & Hc & Hlen & Hs & Hcap).
  assert (u32 (size v - 1) = size v - 1) as Hdec by (apply u32_small; lia).
  pose proof (pop_vec_at _ _ _ _ _ Hvec) as Hvec1. rewrite Hdec in Hvec1.
  eexists. split_and!; [| reflexivity | by simplify_map_eq |].
  - rewrite (pop_run _ _ _ _ _ Hvec), Hdec. case_decide as Hin; [done|].
    by rewrite lookup_ge_None_2 by lia.
  - intros Hle y.
    rewrite (push_in_place alloc _ _ _ _ _ y Hvec1) by (fields; lia).
    fields. f_equal.
    replace (size v - 1 + 1) with (size v) by lia.
    apply map_eq; intros q.
    destruct (decide (q = a)) as [->|].
    { rewrite !lookup_insert_eq. by destruct v. }
    destruct (decide (q = data v)) as [->|]; by simplify_map_eq.
Qed.

Lemma pop_n_frame a m cells k : ∀ h v r h',
  vec_at h a v m cells → pop_n a k h = Ok r h' →
  ∃ s, h' = <[a := Struct (set_size s v) m]> h.
Proof.
  induction k as [|k IH]; intros h v r h' Hvec E.
  - injection E as _ <-. exists (size v).
    destruct Hvec as (_ & _ & _ & Hv & _).
    rewrite insert_id; [done|]. rewrite Hv. by destruct v.
  - cbn [pop_n] in E. unfold mbind, M_bind in E.
    rewrite (pop_run _ _ _ _ _ Hvec) in E.
    destruct (pop_n a k _) as [r1 h1|] eqn:E1; [|done].
    injection E as _ <-.
    destruct (IH _ _ _ _ (pop_vec_at _ _ _ _ _ Hvec) E1) as (s & ->).
    exists s. by rewrite insert_insert_eq.
Qed.
End PopPost.

(** C5.  Pop postcondition, for the value variant and for the pointer
    variant: for every vector with [size > 0], pop decrements [size] by
    exactly one and returns what slot [size - 1] held; nothing else in
    the heap changes, so the vacated slot is neither cleared nor freed,
    and when [size ≤ capacity] held the next push reuses that slot
    without reallocating. *)
Theorem pop_postcondition :
  (∀ T (alloc : gmap Z (block T) → Z → Z) h a v m cells,
     vec_at h a v m cells → 0 < size v →
     pop_post (pop_T_vector a) (push_T_vector alloc a) h a v m cells) ∧
  (∀ (alloc : gmap Z (block Z) → Z → Z) h a v m cells,
     vec_at h a v m cells → 0 < size v →
     pop_post (pop_T_ptr_vector a) (push_T_ptr_vector alloc a) h a v m cells).
Proof.
  split.
  - intros T alloc h a v m cells. apply pop_post_holds.
  - intros alloc h a v m cells. apply (pop_post_holds alloc).
Qed.

(** * Deleting a pointer vector *)

(** C4.  Delete ownership law, for a pointer vector that holds each
    referent once.  Take a pointer vector holding the pointers [ps] in
    slots [0 .. size), pop [k] of them, and delete it.  With
    [own_ptrs] true, and the stored pointers pairwise distinct live
    allocations, none of them null, the struct or the buffer, delete
    frees the referent of every slot still below [size], each once (a
    block freed twice would be undefined behaviour, and the run is
    defined), and leaves every other block, the popped referents among
    them, as it was.  With [own_ptrs] false it frees no referent,
    whatever the slots hold.  Either way the buffer and the struct are
    released.  The condition on the stored pointers is needed: push
    does not check it, and without it a popped referent can be freed
    or a held one freed twice. *)
Theorem delete_ownership_law (h : gmap Z (block Z)) a v m cells ps k :
  vec_at h a v m cells → size v ≤ capacity v →
  take (Z.to_nat (size v)) cells = Some <$> ps →
  (k ≤ length ps)%nat →
  is_Some (own_ptrs m) →
  (own_ptrs m = Some true →
   NoDup ps ∧
   ∀ p, p ∈ ps → p ≠ NULL ∧ p ≠ a ∧ p ≠ data v ∧ is_Some (h !! p)) →
  let held := take (length ps - k) ps in
  let popped := drop (length ps - k) ps in
  ∃ h1 h2,
    pop_ptr_n a k h = Ok (Some <$> reverse popped) h1 ∧
    delete_T_ptr_vector a h1 = Ok tt h2 ∧
    h2 !! a = None ∧ h2 !! data v = None ∧
    (own_ptrs m = Some true →
     (∀ p, p ∈ held → h2 !! p = None) ∧
     (∀ q, q ∈ popped → h2 !! q = h !! q) ∧
     (∀ q, q ∉ held → q ≠ a → q ≠ data v → h2 !! q = h !! q)) ∧
    (own_ptrs m = Some false →
     ∀ q, q ≠ a → q ≠ data v → h2 !! q = h !! q).
Proof.
  intros Hvec Hle Hps Hk [own Hown] Howned held popped.
  pose proof Hvec as (Ha & Hd & Hda & Hv & Hc & Hlen & Hs & Hcap).
  assert (size v = Z.of_nat (length ps)) as Hn.
  { apply (f_equal length) in Hps.
    rewrite length_take, length_fmap in Hps. lia. }
  assert (ps = held ++ popped) as Hsplit by (symmetry; apply take_drop).
  assert (length popped = k) as Hpopped by (unfold popped; rewrite length_drop; lia).
  assert (holds h a m (capacity v) (held ++ popped)) as Hh.
  { rewrite <- Hsplit. exists v, cells. split_and!; try done.
    by rewrite <- Hps, Hn, Nat2Z.id. }
  destruct (pop_n_holds popped h a m _ held Hh) as (h1 & E1 & Hh1).
  rewrite Hpopped in E1.
  destruct (pop_n_frame a m cells k h v _ _ Hvec E1) as (s & Hh1eq).
  destruct Hh1 as (v1 & cells1 & Hvec1 & Hsz1 & Hcap1 & Hle1 & Hheld).
  pose proof Hvec1 as (_ & _ & _ & Hv1 & Hc1 & _).
  rewrite Hh1eq, lookup_insert_eq in Hv1. injection Hv1 as <-.
  cbn [data set_size] in Hc1.
  assert (∀ q, q ≠ a → h1 !! q = h !! q) as Hframe.
  { intros q Hq. by rewrite Hh1eq, lookup_insert_ne. }
  exists h1. destruct own.
  - destruct (Howned Hown) as [Hnodup Hlive].
    rewrite Hsplit in Hnodup. apply NoDup_app in Hnodup as (Hnd1 & Hdisj & _).
    assert (∀ p, p ∈ held → p ≠ NULL ∧ p ≠ a ∧ p ≠ data v ∧ is_Some (h1 !! p))
      as Hlive1.
    { intros p Hp. destruct (Hlive p) as (? & ? & ? & ?).
      - rewrite Hsplit. apply elem_of_app. by left.
      - split_and!; try done. by rewrite Hframe. }
    eexists. split; [by rewrite pop_ptr_n_eq|].
    split.
    { apply (delete_owning h1 a _ m cells1 held Hvec1 Hown); try done.
      by rewrite Hsz1, Nat2Z.id. }
    cbn [data set_size].
    assert (∀ q, q ≠ a → q ≠ data v →
              base.delete a (base.delete (data v) (free_all held h1)) !! q
              = if decide (q ∈ held) then None else h !! q) as Hlook.
    { intros q Hqa Hqd.
      rewrite !lookup_delete_ne, lookup_free_all by done.
      case_decide; [done | by apply Hframe]. }
    split_and!.
    + apply lookup_delete_eq.
    + rewrite lookup_delete_ne by done. apply lookup_delete_eq.
    + intros _. split_and!.
      * intros p Hp. destruct (Hlive1 p Hp) as (_ & ? & ? & _).
        by rewrite Hlook, decide_True.
      * intros q Hq. destruct (Hlive q) as (_ & ? & ? & _).
        { rewrite Hsplit. apply elem_of_app. by right. }
        rewrite Hlook, decide_False; [done | | done | done].
        intros Hin. by apply (Hdisj q).
      * intros q Hq Hqa Hqd. by rewrite Hlook, decide_False.
    + by rewrite Hown.
  - eexists. split; [by rewrite pop_ptr_n_eq|].
    split; [by apply (delete_borrowing h1 a _ m cells1 Hvec1)|].
    cbn [data set_size]. split_and!.
    + apply lookup_delete_eq.
    + rewrite lookup_delete_ne by done. apply lookup_delete_eq.
    + by rewrite Hown.
    + intros _ q Hqa Hqd. rewrite !lookup_delete_ne by done. by apply Hframe.
Qed.

(** * Construction, checked against the allocator *)

Section Construction.
Context {T : Type}.
Variable alloc : gmap Z (block T) → Z → Z.
Hypothesis alloc_fresh : ∀ h n, alloc h n = NULL ∨ h !! alloc h n = None.
Hypothesis alloc_ok : ∀ h n, alloc h n ≠ NULL.

Lemma new_T_vector_post sizeof_T sizeof_T_vector h0 :
  ∃ a d h1,
    new_T_vector alloc sizeof_T sizeof_T_vector h0 = Ok a h1 ∧
    h0 !! a = None ∧ h0 !! d = None ∧
    vec_at h1 a (mk_vector 0 DEFAULT_CAPACITY sizeof_T d) value_members [None].
Proof.
  destruct (new_T_vector_holds alloc sizeof_T sizeof_T_vector alloc_fresh alloc_ok h0)
    as (a & h1 & E & _ & Ha & d & Hd & Hvec).
  by exists a, d, h1.
Qed.
End Construction.

Section PtrConstruction.
Variable alloc : gmap Z (block Z) → Z → Z.
Variables sizeof_ptr sizeof_T_ptr_vector : Z.
Variable own : bool.
Hypothesis alloc_fresh : ∀ h n, alloc h n = NULL ∨ h !! alloc h n = None.
Hypothesis alloc_ok : ∀ h n, alloc h n ≠ NULL.

Lemma new_T_ptr_vector_post h0 :
  ∃ a d h1,
    new_T_ptr_vector alloc sizeof_ptr sizeof_T_ptr_vector own h0 = Ok a h1 ∧
    h0 !! a = None ∧ h0 !! d = None ∧
    vec_at h1 a (mk_vector 0 DEFAULT_CAPACITY sizeof_ptr d) (ptr_members own) [None].
Proof.
  set (a := alloc h0 sizeof_T_ptr_vector).
  set (h1 := <[a := Struct (mk_vector 0 DEFAULT_CAPACITY sizeof_ptr NULL) no_members]> h0).
  set (d := alloc h1 (DEFAULT_CAPACITY * sizeof_ptr)).
  pose proof (alloc_unused alloc alloc_fresh alloc_ok h0 sizeof_T_ptr_vector) as Ha.
  pose proof (alloc_unused alloc alloc_fresh alloc_ok h1 (DEFAULT_CAPACITY * sizeof_ptr)) as Hd.
  fold a in Ha. fold d in Hd.
  assert (a ≠ NULL) by apply alloc_ok.
  assert (d ≠ NULL) by apply alloc_ok.
  assert (d ≠ a) by (intros E; rewrite E in Hd; unfold h1 in Hd; by simplify_map_eq).
  assert (h0 !! d = None).
  { unfold h1 in Hd. by rewrite lookup_insert_ne in Hd. }
  eexists a, d, _. split; [by apply new_T_ptr_vector_run|].
  split; [done|]. split; [done|].
  unfold vec_at; split_and!; try by vec_side.
Qed.

Lemma own_ptrs_immutable h a :
  reachable (new_T_ptr_vector alloc sizeof_ptr sizeof_T_ptr_vector own)
            (push_T_ptr_vector alloc) pop_T_ptr_vector h a →
  ∃ v m, h !! a = Some (Struct v m) ∧ own_ptrs m = Some own.
Proof.
  intros Hreach.
  destruct (reachable_inv alloc alloc_fresh alloc_ok
              (new_T_ptr_vector alloc sizeof_ptr sizeof_T_ptr_vector own)
              (ptr_members own))
    with (h := h) (a := a) as (v & cells & k & Hvec & _); [|done|].
  { intros h0 a0 h1 E.
    destruct (new_T_ptr_vector_post h0) as (a1 & d & h2 & E1 & _ & _ & Hvec).
    rewrite E1 in E. injection E as <- <-. by eexists _, _. }
  exists v, (ptr_members own). split; [apply Hvec | done].
Qed.
End PtrConstruction.

(** C8.  Construction postcondition (with an allocator that satisfies
    both requests): a freshly constructed container of either variant
    has [size = 0], [capacity = DEFAULT_CAPACITY = 1], and a fresh
    buffer of one slot; in the pointer variant [own_ptrs] is the
    boolean given to the constructor, and it keeps that value through
    every later push and pop. *)
Theorem construction_postcondition :
  (∀ T (alloc : gmap Z (block T) → Z → Z) sizeof_T sizeof_T_vector,
     (∀ h n, alloc h n = NULL ∨ h !! alloc h n = None) →
     (∀ h n, alloc h n ≠ NULL) →
     ∀ h0, ∃ a d h1,
       new_T_vector alloc sizeof_T sizeof_T_vector h0 = Ok a h1 ∧
       h0 !! a = None ∧ h0 !! d = None ∧
       vec_at h1 a (mk_vector 0 DEFAULT_CAPACITY sizeof_T d) value_members [None]) ∧
  (∀ (alloc : gmap Z (block Z) → Z → Z) sizeof_ptr sizeof_T_ptr_vector own,
     (∀ h n, alloc h n = NULL ∨ h !! alloc h n = None) →
     (∀ h n, alloc h n ≠ NULL) →
     (∀ h0, ∃ a d h1,
        new_T_ptr_vector alloc sizeof_ptr sizeof_T_ptr_vector own h0 = Ok a h1 ∧
        h0 !! a = None ∧ h0 !! d = None ∧
        vec_at h1 a (mk_vector 0 DEFAULT_CAPACITY sizeof_ptr d) (ptr_members own) [None]) ∧
     (∀ h a,
        reachable (new_T_ptr_vector alloc sizeof_ptr sizeof_T_ptr_vector own)
                  (push_T_ptr_vector alloc) pop_T_ptr_vector h a →
        ∃ v m, h !! a = Some (Struct v m) ∧ own_ptrs m = Some own)).
Proof.
  split.
  - intros T alloc sizeof_T sizeof_T_vector Hfresh Hok h0.
    by apply new_T_vector_post.
  - intros alloc sizeof_ptr sizeof_T_ptr_vector own Hfresh Hok. split.
    + intros h0. by apply new_T_ptr_vector_post.
    + intros h a. by apply own_ptrs_immutable.
Qed.

Lemma new_T_vector_with_fault {T} (new_vector : Z → Z → M T Z)
    sizeof_T sizeof_T_vector h0 :
  (new_vector sizeof_T_vector sizeof_T h0 = Fault
   ∨ ∃ h, new_vector sizeof_T_vector sizeof_T h0 = Ok NULL h) →
  new_T_vector_with sizeof_T sizeof_T_vector new_vector h0 = Fault.
Proof.
  intros [E|[h E]]; unfold new_T_vector_with.
  - by apply bind_fault.
  - rewrite (bind_run _ _ _ _ _ E). by apply bind_fault.
Qed.

Lemma new_T_ptr_vector_with_fault (new_vector : Z → Z → M Z Z)
    sizeof_ptr sizeof_T_ptr_vector own h0 :
  (new_vector sizeof_T_ptr_vector sizeof_ptr h0 = Fault
   ∨ ∃ h, new_vector sizeof_T_ptr_vector sizeof_ptr h0 = Ok NULL h) →
  new_T_ptr_vector_with sizeof_ptr sizeof_T_ptr_vector new_vector own h0 = Fault.
Proof.
  intros [E|[h E]]; unfold new_T_ptr_vector_with.
  - by apply bind_fault.
  - rewrite (bind_run _ _ _ _ _ E). by apply bind_fault.
Qed.

(** C7 (as amended).  Construction checks no allocation result.  If
    [new_vector] fails, whether it hands back a null pointer or is
    itself undefined, neither constructor reports a failure to its
    caller: each stores through the null pointer, which is undefined
    behaviour, and returns no container at all.  With [new_vector] as
    modelled, that is what happens when the allocator cannot satisfy
    the request for the struct. *)
Theorem construction_ignores_allocation_failure :
  (∀ T (new_vector : Z → Z → M T Z) sizeof_T sizeof_T_vector h0,
     (new_vector sizeof_T_vector sizeof_T h0 = Fault
      ∨ ∃ h, new_vector sizeof_T_vector sizeof_T h0 = Ok NULL h) →
     new_T_vector_with sizeof_T sizeof_T_vector new_vector h0 = Fault) ∧
  (∀ (new_vector : Z → Z → M Z Z) sizeof_ptr sizeof_T_ptr_vector own h0,
     (new_vector sizeof_T_ptr_vector sizeof_ptr h0 = Fault
      ∨ ∃ h, new_vector sizeof_T_ptr_vector sizeof_ptr h0 = Ok NULL h) →
     new_T_ptr_vector_with sizeof_ptr sizeof_T_ptr_vector new_vector own h0
     = Fault) ∧
  (∀ T (alloc : gmap Z (block T) → Z → Z) sizeof_T sizeof_T_vector h0,
     alloc h0 sizeof_T_vector = NULL →
     new_T_vector alloc sizeof_T sizeof_T_vector h0 = Fault) ∧
  (∀ (alloc : gmap Z (block Z) → Z → Z) sizeof_ptr sizeof_T_ptr_vector own h0,
     alloc h0 sizeof_T_ptr_vector = NULL →
     new_T_ptr_vector alloc sizeof_ptr sizeof_T_ptr_vector own h0 = Fault).
Proof.
  split_and!.
  - intros T new_vector sizeof_T sizeof_T_vector h0.
    apply new_T_vector_with_fault.
  - intros new_vector sizeof_ptr sizeof_T_ptr_vector own h0.
    apply new_T_ptr_vector_with_fault.
  - intros T alloc sizeof_T sizeof_T_vector h0 E.
    apply new_T_vector_with_fault. left. by apply new_vector_no_memory.
  - intros alloc sizeof_ptr sizeof_T_ptr_vector own h0 E.
    apply new_T_ptr_vector_with_fault. left. by apply new_vector_no_memory.
Qed.

(** * The laws at concrete vectors *)

Lemma vec_at_fresh_int_vector :
  vec_at fresh_int_vector 1 (mk_vector 0 1 4 2) value_members [None].
Proof. unfold vec_at; split_and!; done. Qed.

Lemma vec_at_int_vector_3 :
  vec_at int_vector_3 1 (mk_vector 3 4 4 4) value_members
         [Some 10; Some 20; Some 30; None].
Proof. unfold vec_at; split_and!; done. Qed.

Lemma vec_at_int_vector_full :
  vec_at int_vector_full 1 (mk_vector 2 2 4 3) value_members [Some 10; Some 20].
Proof. unfold vec_at; split_and!; done. Qed.

Lemma vec_at_ptr_vector_2 own :
  vec_at (ptr_vector_2 own) 1 (mk_vector 2 2 4 5) (ptr_members own)
         [Some 3; Some 4].
Proof. unfold vec_at; split_and!; done. Qed.

(** The scenario of the specification: an empty [int] vector, three
    pushes (capacity 1, 2, 4), two pops. *)
Example scenario_push_pop :
  match (vect ← new_T_vector bump 4 28;
         v0 ← load vect;
         push_all bump vect [1; 2; 3];;
         v3 ← load vect;
         x ← pop_T_vector vect;
         y ← pop_T_vector vect;
         v1 ← load vect;
         z ← read (data v1) 0;
         mret (size v0, capacity v0, size v3, capacity v3, x, y, size v1, z))
          (∅ : gmap Z (block Z))
  with
  | Ok r _ => r = (0, 1, 3, 4, Some 3, Some 2, 1, Some 1)
  | Fault => False
  end.
Proof. by vm_compute. Qed.

(** The second scenario: an owning pointer vector over two allocated
    strings; deleting it leaves nothing allocated. *)
Example scenario_owning_delete :
  (vect ← new_T_ptr_vector bump 4 29 true;
   p ← kmalloc bump 2 Raw;
   q ← kmalloc bump 2 Raw;
   push_T_ptr_vector bump vect p;;
   push_T_ptr_vector bump vect q;;
   delete_T_ptr_vector vect) ∅
  = Ok tt ∅.
Proof. by vm_compute. Qed.

(** The same vector built without ownership: deleting it leaves the
    two strings allocated. *)
Example scenario_borrowing_delete :
  (vect ← new_T_ptr_vector bump 4 29 false;
   p ← kmalloc bump 2 Raw;
   q ← kmalloc bump 2 Raw;
   push_T_ptr_vector bump vect p;;
   push_T_ptr_vector bump vect q;;
   delete_T_ptr_vector vect) ∅
  = Ok tt (<[3 := Raw]> (<[4 := Raw]> ∅)).
Proof. by vm_compute. Qed.

Lemma doubling_law_witness :
  ∃ a h1 h2 v m k,
    new_T_vector bump 4 28 (∅ : gmap Z (block Z)) = Ok a h1 ∧
    push_all bump a [10; 20; 30] h1 = Ok tt h2 ∧
    h2 !! a = Some (Struct v m) ∧
    size v = 3 ∧
    capacity v = 2 ^ k ∧ 0 ≤ k ∧ 3 ≤ 2 ^ k ∧
    (∀ j, 0 ≤ j → 3 ≤ 2 ^ j → k ≤ j) ∧
    ([10; 20; 30] = [] → capacity v = 1).
Proof.
  apply (doubling_law bump 4 28 bump_fresh bump_ok ∅ [10; 20; 30]).
  cbn [length]. lia.
Defined.

(** C1, counterexample.  With an allocator that never fails, pushing
    2^31 + 1 elements into a fresh vector is undefined: the 32-bit
    [capacity * 2] wraps to 0 at capacity 2^31, the new buffer has one
    slot, and copying 2^31 elements into it overruns it.  No capacity
    2^32 results. *)
Lemma capacity_wraps_past_2_31 :
  (vect ← new_T_vector bump 1 28;
   push_all bump vect (replicate (Z.to_nat 2147483649) 0))
    (∅ : gmap Z (block Z)) = Fault.
Proof.
  replace (Z.to_nat 2147483649) with (Z.to_nat 2147483648 + 1)%nat by lia.
  rewrite replicate_add.
  apply (overlong_push_faults bump 1 28 bump_fresh bump_ok).
  rewrite length_replicate. lia.
Qed.

Lemma stack_law_witness :
  ∃ h1 h2,
    push_all bump 1 [10; 20; 30] fresh_int_vector = Ok tt h1 ∧
    pop_n 1 3 h1 = Ok [Some 30; Some 20; Some 10] h2.
Proof.
  apply (stack_law bump bump_fresh bump_ok fresh_int_vector 1 value_members 1
           [] [10; 20; 30]).
  - exists (mk_vector 0 1 4 2), [None].
    split; [apply vec_at_fresh_int_vector | done].
  - cbn [length]. lia.
Defined.

(** C2, counterexample.  Pushing 2^31 + 1 values into a fresh vector
    and popping them is undefined (the growth at 2^31 elements overruns
    the new buffer), so no sequence of popped values results. *)
Lemma push_pop_faults_past_2_31 :
  (vect ← new_T_vector bump 1 28;
   push_all bump vect (replicate (Z.to_nat 2147483649) 0);;
   pop_n vect (Z.to_nat 2147483649))
    (∅ : gmap Z (block Z)) = Fault.
Proof.
  pose proof (overlong_push_faults (T := Z) bump 1 28 bump_fresh bump_ok ∅
                (replicate (Z.to_nat 2147483648) 0) 0) as E.
  rewrite length_replicate in E. specialize (E ltac:(lia)).
  replace (Z.to_nat 2147483649) with (Z.to_nat 2147483648 + 1)%nat by lia.
  rewrite replicate_add.
  unfold mbind, M_bind in *.
  destruct (new_T_vector bump 1 28 ∅) as [a h|]; [|done].
  change (replicate 1 0) with [0].
  by rewrite E.
Qed.

Lemma capacity_invariant_witness :
  ∃ a h1 snaps h2,
    new_T_vector bump 4 28 (∅ : gmap Z (block Z)) = Ok a h1 ∧
    run_ops bump a [Push 1; Push 2; Pop; Push 3; Pop; Pop] h1 = Ok snaps h2 ∧
    length snaps = 6%nat ∧
    Forall (λ v, 0 ≤ size v ≤ capacity v) snaps.
Proof.
  apply (capacity_invariant bump 4 28 bump_fresh bump_ok ∅
           [Push 1; Push 2; Pop; Push 3; Pop; Pop]).
  reflexivity.
Defined.

(** C3, counterexample.  A pop applied to a freshly constructed vector
    leaves [size = 4294967295] and [capacity = 1]. *)
Lemma empty_pop_breaks_invariant :
  ∃ a h1 v h2,
    new_T_vector bump 4 28 (∅ : gmap Z (block Z)) = Ok a h1 ∧
    run_ops bump a [Pop] h1 = Ok [v] h2 ∧
    size v = 4294967295 ∧ capacity v = 1 ∧ ¬ (size v ≤ capacity v).
Proof.
  exists 1, fresh_int_vector, (mk_vector 4294967295 1 4 2),
    (<[1 := Struct (mk_vector 4294967295 1 4 2) value_members]> fresh_int_vector).
  split_and!; [by vm_compute | by vm_compute | done | done | cbn; lia].
Qed.

Lemma delete_ownership_law_witness :
  ∃ h1 h2,
    pop_ptr_n 1 1 (ptr_vector_2 true) = Ok [Some 4] h1 ∧
    delete_T_ptr_vector 1 h1 = Ok tt h2 ∧
    h2 !! 1 = None ∧ h2 !! 5 = None ∧
    (Some true = Some true →
     (∀ p, p ∈ [3] → h2 !! p = None) ∧
     (∀ q, q ∈ [4] → h2 !! q = ptr_vector_2 true !! q) ∧
     (∀ q, q ∉ [3] → q ≠ 1 → q ≠ 5 → h2 !! q = ptr_vector_2 true !! q)) ∧
    (Some true = Some false →
     ∀ q, q ≠ 1 → q ≠ 5 → h2 !! q = ptr_vector_2 true !! q).
Proof.
  apply (delete_ownership_law (ptr_vector_2 true) 1 (mk_vector 2 2 4 5)
           (ptr_members true) [Some 3; Some 4] [3; 4] 1).
  - apply vec_at_ptr_vector_2.
  - cbn. lia.
  - reflexivity.
  - cbn. lia.
  - by eexists.
  - intros _. split.
    + by apply (bool_decide_unpack _).
    + intros p [->|[->|[]%elem_of_nil]%elem_of_cons]%elem_of_cons;
        split_and!; try done; by eexists.
Defined.

(** C4, counterexample.  Push stores whatever pointer it is given, so
    one referent can sit in two slots.  An owning pointer vector is
    built, the address [p] of one allocated block is pushed twice and
    popped once: the block is still allocated, it was removed via pop,
    and delete returns having freed it.  Without the pop, delete frees
    the block at slot 0 and again at slot 1, which is undefined
    behaviour, not one release per referent. *)
Lemma delete_frees_popped_referent :
  (∃ vect p h1 h2,
     (vect ← new_T_ptr_vector bump 4 29 true;
      p ← kmalloc bump 2 Raw;
      push_T_ptr_vector bump vect p;;
      push_T_ptr_vector bump vect p;;
      r ← pop_T_ptr_vector vect;
      mret (vect, p, r)) ∅ = Ok (vect, p, Some p) h1 ∧
     h1 !! p = Some Raw ∧
     delete_T_ptr_vector vect h1 = Ok tt h2 ∧
     h2 !! p = None) ∧
  (vect ← new_T_ptr_vector bump 4 29 true;
   p ← kmalloc bump 2 Raw;
   push_T_ptr_vector bump vect p;;
   push_T_ptr_vector bump vect p;;
   delete_T_ptr_vector vect) ∅ = Fault.
Proof.
  split; [ | by vm_compute ].
  exists 1, 3,
    (<[1 := Struct (mk_vector 1 2 4 4) (ptr_members true)]>
       (<[4 := Array [Some 3; Some 3]]> (<[3 := Raw]> ∅))),
    ∅.
  split_and!; by vm_compute.
Qed.

Lemma pop_postcondition_witness :
  pop_post (pop_T_vector 1) (push_T_vector bump 1) int_vector_3 1
           (mk_vector 3 4 4 4) value_members [Some 10; Some 20; Some 30; None] ∧
  pop_post (pop_T_ptr_vector 1) (push_T_ptr_vector bump 1) (ptr_vector_2 true) 1
           (mk_vector 2 2 4 5) (ptr_members true) [Some 3; Some 4].
Proof.
  split.
  - apply (proj1 pop_postcondition Z bump int_vector_3 1 (mk_vector 3 4 4 4)
             value_members [Some 10; Some 20; Some 30; None]).
    + apply vec_at_int_vector_3.
    + cbn. lia.
  - apply (proj2 pop_postcondition bump (ptr_vector_2 true) 1 (mk_vector 2 2 4 5)
             (ptr_members true) [Some 3; Some 4]).
    + apply vec_at_ptr_vector_2.
    + cbn. lia.
Defined.

Lemma growth_preserves_contents_witness :
  ∃ h' v' cells',
    push_T_vector bump 1 30 int_vector_full = Ok tt h' ∧
    vec_at h' 1 v' value_members cells' ∧
    size v' = 3 ∧ capacity v' = 4 ∧ 2 < capacity v' ∧
    int_vector_full !! data v' = None ∧ h' !! 3 = None ∧
    (∀ i, 0 ≤ i < 2 → cells' !! Z.to_nat i = [Some 10; Some 20] !! Z.to_nat i) ∧
    cells' !! 2%nat = Some (Some 30).
Proof.
  apply (growth_preserves_contents bump bump_fresh bump_ok int_vector_full 1
           (mk_vector 2 2 4 3) value_members [Some 10; Some 20] 30).
  - apply vec_at_int_vector_full.
  - reflexivity.
  - cbn. lia.
Defined.

(** C6, counterexample.  A vector with [size = capacity = 2^31]: the
    push that should grow it is undefined, because [capacity * 2] wraps
    to 0, the new buffer has one slot, and 2^31 slots are copied into
    it. *)
Lemma growth_fails_at_2_31 :
  vec_at char_vector_2_31 1 (mk_vector 2147483648 2147483648 1 2) value_members
         (replicate (Z.to_nat 2147483648) (Some 0)) ∧
  push_T_vector bump 1 7 char_vector_2_31 = Fault.
Proof.
  assert (vec_at char_vector_2_31 1 (mk_vector 2147483648 2147483648 1 2)
            value_members (replicate (Z.to_nat 2147483648) (Some 0))) as Hvec.
  { unfold vec_at, char_vector_2_31, NULL, UINT32_MAX.
    cbn [size capacity data data_size]. split_and!; try lia.
    - apply lookup_insert_eq.
    - rewrite lookup_insert_ne by lia. apply lookup_insert_eq.
    - rewrite length_replicate. lia. }
  split; [exact Hvec|].
  eapply push_growth_wraps; [apply bump_fresh | exact Hvec | |];
    cbn [size capacity]; lia.
Qed.

Lemma construction_ignores_allocation_failure_witness :
  new_T_vector_with 4 28 (λ _ _, mret NULL) (∅ : gmap Z (block Z)) = Fault ∧
  new_T_ptr_vector exhausted 4 29 true ∅ = Fault.
Proof.
  split.
  - apply (proj1 construction_ignores_allocation_failure Z (λ _ _, mret NULL)
             4 28 ∅).
    right. by exists ∅.
  - apply (proj2 (proj2 (proj2 construction_ignores_allocation_failure))
             exhausted 4 29 true ∅).
    reflexivity.
Defined.

(** C7, counterexample.  Constructing an [int] vector when the
    allocation fails: if [new_vector] reports the failure by returning
    a null pointer, the constructor does not pass it on but stores
    through it; and with [new_vector] as modelled and no memory left,
    the run is undefined as well.  Neither returns a failure to the
    caller. *)
Lemma construction_failure_is_not_reported :
  new_T_vector_with 4 28 (λ _ _, mret NULL) (∅ : gmap Z (block Z)) = Fault ∧
  new_T_vector exhausted 4 28 (∅ : gmap Z (block Z)) = Fault ∧
  new_T_ptr_vector exhausted 4 29 true ∅ = Fault.
Proof. split_and!; by vm_compute. Qed.

(** With room for the struct but not for the buffer, the modelled
    [new_vector] hands back a struct whose buffer is null, and the
    constructor returns it. *)
Example construction_with_one_block :
  new_T_vector one_block 4 28 (∅ : gmap Z (block Z))
  = Ok 1 (<[1 := Struct (mk_vector 0 1 4 NULL) value_members]> ∅).
Proof. by vm_compute. Qed.

Lemma construction_postcondition_witness :
  (∃ a d h1,
     new_T_vector bump 4 28 (∅ : gmap Z (block Z)) = Ok a h1 ∧
     (∅ : gmap Z (block Z)) !! a = None ∧ (∅ : gmap Z (block Z)) !! d = None ∧
     vec_at h1 a (mk_vector 0 DEFAULT_CAPACITY 4 d) value_members [None]) ∧
  (∃ a d h1,
     new_T_ptr_vector bump 4 29 true ∅ = Ok a h1 ∧
     (∅ : gmap Z (block Z)) !! a = None ∧ (∅ : gmap Z (block Z)) !! d = None ∧
     vec_at h1 a (mk_vector 0 DEFAULT_CAPACITY 4 d) (ptr_members true) [None]).
Proof.
  split.
  - apply (proj1 construction_postcondition Z bump 4 28 bump_fresh bump_ok ∅).
  - apply (proj1 (proj2 construction_postcondition bump 4 29 true
                    bump_fresh bump_ok) ∅).
Defined.

Lemma pop_on_empty_underflows_witness :
  ∃ h' v',
    pop_T_vector 1 fresh_int_vector = Ok None h' ∧
    h' !! 1 = Some (Struct v' value_members) ∧
    size v' = u32 (0 - 1) ∧ size v' = 4294967295 ∧
    capacity v' = 1 ∧
    ¬ (size v' ≤ capacity v').
Proof.
  apply (pop_on_empty_underflows bump 4 28 bump_fresh bump_ok fresh_int_vector 1
           (mk_vector 0 1 4 2) value_members).
  - apply (reach_new _ _ _ ∅). by vm_compute.
  - reflexivity.
  - reflexivity.
Defined.

Lemma pop_push_roundtrip_witness :
  ∃ h1 v1,
    pop_T_vector 1 int_vector_3 = Ok (Some 30) h1 ∧
    h1 !! 1 = Some (Struct v1 value_members) ∧ size v1 < capacity v1 ∧
    push_T_vector bump 1 30 h1 = Ok tt int_vector_3.
Proof.
  apply (pop_push_roundtrip bump int_vector_3 1 (mk_vector 3 4 4 4) value_members
           [Some 10; Some 20; Some 30; None] 30).
  - apply vec_at_int_vector_3.
  - cbn. lia.
  - reflexivity.
Defined.

(** * Within the capacity: a stack that stays where it is *)

Lemma set_size_id v : set_size (size v) v = v.
Proof. by destruct v. Qed.

Section InPlace.
Context {T : Type}.
Implicit Types (h : gmap Z (block T)) (a : Z) (v : vector) (m : members)
  (cells : list (option T)) (st : list T).

Lemma push_in_place_vec_at alloc h a v m cells st x :
  vec_at h a v m cells → size v = Z.of_nat (length st) →
  take (length st) cells = Some <$> reverse st →
  size v < capacity v →
  let h1 := <[a := Struct (set_size (size v + 1) v) m]>
              (<[data v := Array (<[Z.to_nat (size v) := Some x]> cells)]> h) in
  let cells1 := <[Z.to_nat (size v) := Some x]> cells in
  push_T_vector alloc a x h = Ok tt h1 ∧
  vec_at h1 a (set_size (size v + 1) v) m cells1 ∧
  take (length (x :: st)) cells1 = Some <$> reverse (x :: st).
Proof.
  intros Hvec Hsz Hst Hlt h1 cells1.
  pose proof Hvec as (Ha & Hd & Hda & Hv & Hc & Hlen & Hs & Hcap).
  split; [by apply push_in_place|]. split.
  - unfold vec_at, h1, cells1; split_and!; try by vec_side.
  - unfold cells1. rewrite Hsz, Nat2Z.id, reverse_cons, fmap_app. cbn [length].
    erewrite take_S_r.
    + by rewrite take_insert_ge, Hst by lia.
    + apply list_lookup_insert_eq. lia.
Qed.

Lemma pop_top_vec_at h a v m cells x st :
  vec_at h a v m cells → size v = Z.of_nat (length (x :: st)) →
  take (length (x :: st)) cells = Some <$> reverse (x :: st) →
  let h1 := <[a := Struct (set_size (size v - 1) v) m]> h in
  pop_T_vector a h = Ok (Some x) h1 ∧
  vec_at h1 a (set_size (size v - 1) v) m cells ∧
  take (length st) cells = Some <$> reverse st.
Proof.
  intros Hvec Hsz Hst h1. cbn [length] in Hsz, Hst.
  pose proof Hvec as (Ha & Hd & Hda & Hv & Hc & Hlen & Hs & Hcap).
  assert (u32 (size v - 1) = size v - 1) as Hdec by (apply u32_small; lia).
  assert (length st ≤ length cells)%nat as Hfit.
  { apply (f_equal length) in Hst.
    rewrite length_take, length_fmap, length_reverse in Hst. cbn [length] in Hst. lia. }
  assert (cells !! length st = Some (Some x)) as Hx.
  { rewrite <- (lookup_take_lt _ (S (length st))), Hst by lia.
    rewrite reverse_cons, list_lookup_fmap, lookup_app_r
      by (rewrite length_reverse; lia).
    by rewrite length_reverse, Nat.sub_diag. }
  split_and!.
  - rewrite (pop_run _ _ _ _ _ Hvec), Hdec.
    replace (Z.to_nat (size v - 1)) with (length st) by lia.
    rewrite Hx. apply lookup_lt_Some in Hx. by rewrite decide_True by lia.
  - pose proof (pop_vec_at _ _ _ _ _ Hvec) as Hvec1. by rewrite Hdec in Hvec1.
  - apply (f_equal (take (length st))) in Hst.
    rewrite take_take, Nat.min_l in Hst by lia.
    rewrite Hst, reverse_cons, fmap_app, take_app_length'; [done|].
    by rewrite length_fmap, length_reverse.
Qed.

Lemma exec_ops_in_place ops : ∀ h a v m cells st,
  vec_at h a v m cells → size v = Z.of_nat (length st) →
  take (length st) cells = Some <$> reverse st →
  fits (capacity v) (size v) ops = true →
  ∃ h' cells',
    (∀ alloc, exec_ops alloc a ops h = Ok (stack_model ops st).1 h') ∧
    vec_at h' a (set_size (Z.of_nat (length (stack_model ops st).2)) v) m cells' ∧
    take (length (stack_model ops st).2) cells'
    = Some <$> reverse (stack_model ops st).2 ∧
    ∀ q, q ≠ a → q ≠ data v → h' !! q = h !! q.
Proof.
  induction ops as [|[x|] ops IH]; intros h a v m cells st Hvec Hsz Hst Hfits.
  - exists h, cells. cbn [stack_model fst snd].
    rewrite <- Hsz, set_size_id. by split_and!.
  - cbn [fits] in Hfits.
    apply andb_prop in Hfits as [Hlt%bool_decide_eq_true Hfits].
    pose proof Hvec as (Ha & Hd & Hda & _).
    destruct (push_in_place_vec_at (λ _ _, NULL) h a v m cells st x Hvec Hsz Hst Hlt)
      as (_ & Hvec1 & Hst1).
    destruct (IH _ a _ m _ (x :: st) Hvec1) as (h' & cells' & E & Hvec' & Hst' & Hframe).
    { fields. cbn [length]. lia. }
    { done. }
    { by fields. }
    exists h', cells'. cbn [stack_model]. split_and!; try done.
    + intros alloc. cbn [exec_ops].
      erewrite bind_run by (by apply push_in_place). apply E.
    + intros q Hqa Hqd. rewrite Hframe by done. by simplify_map_eq.
  - cbn [fits] in Hfits.
    apply andb_prop in Hfits as [Hpos%bool_decide_eq_true Hfits].
    destruct st as [|x st]; [cbn [length] in Hsz; lia|].
    pose proof Hvec as (Ha & Hd & Hda & _).
    destruct (pop_top_vec_at h a v m cells x st Hvec Hsz Hst) as (E1 & Hvec1 & Hst1).
    destruct (IH _ a _ m _ st Hvec1) as (h' & cells' & E & Hvec' & Hst' & Hframe).
    { fields. cbn [length] in Hsz. lia. }
    { done. }
    { by fields. }
    exists h', cells'. cbn [stack_model fst snd head tail]. split_and!; try done.
    + intros alloc. cbn [exec_ops].
      rewrite (bind_run _ _ _ _ _ E1), (bind_run _ _ _ _ _ (E alloc)). done.
    + intros q Hqa Hqd. rewrite Hframe by done. by simplify_map_eq.
Qed.
End InPlace.

(** X1.  A sequence of pushes and pops that never pops from an empty
    vector and never pushes into a full one runs in place, whatever
    the allocator: the pops return what a list used as a stack
    returns, the elements left are the stack's, the struct keeps its
    capacity and its buffer address, and no block other than the
    struct and the buffer changes. *)
Theorem stack_within_capacity {T} (h : gmap Z (block T)) a v m cells st ops :
  vec_at h a v m cells → size v = Z.of_nat (length st) →
  take (length st) cells = Some <$> reverse st →
  fits (capacity v) (size v) ops = true →
  ∃ h' cells',
    (∀ alloc, exec_ops alloc a ops h = Ok (stack_model ops st).1 h') ∧
    vec_at h' a (set_size (Z.of_nat (length (stack_model ops st).2)) v) m cells' ∧
    take (length (stack_model ops st).2) cells'
    = Some <$> reverse (stack_model ops st).2 ∧
    ∀ q, q ≠ a → q ≠ data v → h' !! q = h !! q.
Proof. apply exec_ops_in_place. Qed.

Lemma exec_ptr_ops_eq alloc a ops : exec_ptr_ops alloc a ops = exec_ops alloc a ops.
Proof.
  induction ops as [|[x|] ops IH]; [done | |]; cbn [exec_ptr_ops exec_ops];
    by rewrite IH.
Qed.

(** X2.  The pointer variant within its capacity: pushes and pops of
    pointers run in place for every allocator and hand the pointers
    back last in, first out; the referents, like every block other
    than the struct and the buffer, are neither freed nor changed,
    whatever [own_ptrs] says, and [own_ptrs] itself stays as it is. *)
Theorem pointers_within_capacity (h : gmap Z (block Z)) a v m cells st ops :
  vec_at h a v m cells → size v = Z.of_nat (length st) →
  take (length st) cells = Some <$> reverse st →
  fits (capacity v) (size v) ops = true →
  ∃ h' cells',
    (∀ alloc, exec_ptr_ops alloc a ops h = Ok (stack_model ops st).1 h') ∧
    vec_at h' a (set_size (Z.of_nat (length (stack_model ops st).2)) v) m cells' ∧
    take (length (stack_model ops st).2) cells'
    = Some <$> reverse (stack_model ops st).2 ∧
    ∀ q, q ≠ a → q ≠ data v → h' !! q = h !! q.
Proof.
  intros Hvec Hsz Hst Hfits.
  destruct (exec_ops_in_place ops h a v m cells st Hvec Hsz Hst Hfits)
    as (h' & cells' & E & Hrest).
  exists h', cells'. split; [|done].
  intros alloc. rewrite exec_ptr_ops_eq. apply E.
Qed.

(** * With growth: the vector refines a stack *)

Section Refinement.
Context {T : Type}.
Variable alloc : gmap Z (block T) → Z → Z.
Hypothesis alloc_fresh : ∀ h n, alloc h n = NULL ∨ h !! alloc h n = None.
Hypothesis alloc_ok : ∀ h n, alloc h n ≠ NULL.
Implicit Types (h : gmap Z (block T)) (a : Z) (m : members) (st : list T).

(** X3.  Pushes and pops in any order refine a stack: started on a
    vector that holds [st], a sequence that never pops from an empty
    vector and never holds more than 2^31 elements (the allocator
    satisfying every request) makes each pop return the element on top
    of the stack at that point, and leaves in slots [0 .. size) exactly
    the elements pushed and not yet popped, in the order they were
    pushed. *)
Theorem stack_refinement h a m c st ops :
  holds h a m c (reverse st) →
  within_contract (Z.of_nat (length st)) ops = true →
  ∃ h' c',
    exec_ops alloc a ops h = Ok (stack_model ops st).1 h' ∧
    holds h' a m c' (reverse (stack_model ops st).2).
Proof.
  revert h c st. induction ops as [|[x|] ops IH]; intros h c st Hh Hok.
  - by exists h, c.
  - cbn [within_contract] in Hok.
    apply andb_prop in Hok as [Hn%bool_decide_eq_true Hok].
    destruct (push_holds alloc alloc_fresh alloc_ok h a m c (reverse st) x Hh)
      as (h1 & E1 & Hh1); [by rewrite length_reverse|].
    rewrite <- reverse_cons in Hh1.
    destruct (IH h1 _ (x :: st) Hh1) as (h' & c' & E & Hh').
    { cbn [length]. by rewrite Nat2Z.inj_succ, <- Z.add_1_r. }
    exists h', c'. cbn [exec_ops stack_model].
    by rewrite (bind_run _ _ _ _ _ E1).
  - cbn [within_contract] in Hok.
    apply andb_prop in Hok as [Hn%bool_decide_eq_true Hok].
    destruct st as [|x st]; [cbn [length] in Hn; lia|].
    rewrite reverse_cons in Hh.
    destruct (pop_holds h a m c (reverse st) x Hh) as (h1 & E1 & Hh1).
    destruct (IH h1 c st Hh1) as (h' & c' & E & Hh').
    { cbn [length] in Hok.
      by replace (Z.of_nat (length st)) with (Z.of_nat (S (length st)) - 1) by lia. }
    exists h', c'. cbn [exec_ops stack_model fst snd head tail].
    by rewrite (bind_run _ _ _ _ _ E1), (bind_run _ _ _ _ _ E).
Qed.
End Refinement.

(** * What push takes on trust *)

Lemma push_T_vector_with_eq {T} (alloc : gmap Z (block T) → Z → Z) :
  push_T_vector alloc = push_T_vector_with (vector_resize alloc).
Proof. reflexivity. Qed.

(** X4.  What push does on a full vector is decided by what
    [vector_resize] leaves behind, and push checks none of it.  If the
    helper is undefined, or returns with the vector still full (it
    gave up, say, because no memory was left), push reports nothing:
    it stores one slot past the end of the buffer, which is undefined
    behaviour.  If the helper returns with room, push stores the value
    in slot [size] of the buffer the helper left and adds one to
    [size].  This holds whatever the helper is; [push_T_vector] is
    [push_T_vector_with] at the helper as modelled. *)
Theorem push_trusts_vector_resize {T} (resize : Z → M T unit)
    (h : gmap Z (block T)) a v m cells x :
  vec_at h a v m cells → size v = capacity v →
  (resize a h = Fault → push_T_vector_with resize a x h = Fault) ∧
  (∀ h1 v1 m1 cells1,
     resize a h = Ok tt h1 → vec_at h1 a v1 m1 cells1 →
     (capacity v1 ≤ size v1 → push_T_vector_with resize a x h = Fault) ∧
     (size v1 < capacity v1 →
      push_T_vector_with resize a x h
      = Ok tt (<[a := Struct (set_size (size v1 + 1) v1) m1]>
                 (<[data v1 := Array (<[Z.to_nat (size v1) := Some x]> cells1)]>
                    h1)))).
Proof.
  intros Hvec Hfull.
  pose proof Hvec as (Ha & _ & _ & Hv & _).
  unfold push_T_vector_with. split.
  - intros E. run_by load_run. rewrite decide_True by done.
    apply bind_fault. by rewrite E.
  - intros h1 v1 m1 cells1 E Hvec1.
    run_by load_run. rewrite decide_True by done.
    erewrite bind_run by (by rewrite E).
    destruct Hvec1 as (_ & Hd1 & Hda1 & Hv1 & Hc1 & Hlen1 & Hs1 & Hcap1).
    erewrite bind_run by (by eapply load_run). split.
    + intros Hstill. apply bind_fault. eapply write_outside; [done | done | lia].
    + intros Hroom. run_by write_run. run_by load_run.
      erewrite store_run; [ | done | by simplify_map_eq ].
      by rewrite u32_small by lia.
Qed.


(** X6.  Deleting a pointer vector that does not own its referents, or
    an owning one that is empty, is deleting a value vector: no slot of
    the buffer is read and nothing but [delete_vector] runs. *)
Theorem delete_without_referents (h : gmap Z (block Z)) a v m :
  a ≠ NULL → h !! a = Some (Struct v m) →
  own_ptrs m = Some false ∨ (own_ptrs m = Some true ∧ size v = 0) →
  delete_T_ptr_vector a h = delete_T_vector a h.
Proof.
  intros Ha Hv [Hown|[Hown Hempty]]; unfold delete_T_ptr_vector, delete_T_vector.
  - run_by load_members_run. rewrite Hown. by erewrite bind_run by reflexivity.
  - run_by load_members_run. rewrite Hown.
    erewrite bind_run; [done|].
    run_by load_run. rewrite Hempty.
    change (Z.to_nat 0) with 0%nat. cbn [free_referents].
    run_by load_run. by rewrite decide_False by lia.
Qed.

(** * When the owning delete is defined *)

Section OwningDelete.
Implicit Types (h : gmap Z (block Z)) (a : Z) (v : vector) (m : members)
  (cells : list (option Z)) (ps : list Z).

Lemma kfree_dead {T} (g : gmap Z (block T)) p :
  deref g p = None → kfree p g = Fault.
Proof. intros E. unfold kfree. by rewrite E. Qed.

Lemma load_dead {T} (g : gmap Z (block T)) p : g !! p = None → load p g = Fault.
Proof. intros E. unfold load, deref. case_decide; [done | by rewrite E]. Qed.

Lemma read_dead {T} (g : gmap Z (block T)) d i :
  g !! d = None → read d i g = Fault.
Proof. intros E. unfold read, deref. case_decide; [done | by rewrite E]. Qed.

Lemma free_referents_dead_struct fuel a i h :
  load a h = Fault → free_referents fuel a i h = Fault.
Proof. intros E. destruct fuel; cbn [free_referents]; by apply bind_fault. Qed.

Lemma free_referents_undefined ps : ∀ h i a v m cells,
  a ≠ NULL → data v ≠ NULL → data v ≠ a →
  h !! a = Some (Struct v m) → h !! data v = Some (Array cells) →
  0 ≤ i → size v = i + Z.of_nat (length ps) →
  size v ≤ Z.of_nat (length cells) →
  (∀ j p, ps !! j = Some p → cells !! (Z.to_nat i + j)%nat = Some (Some p)) →
  ¬ (NoDup ps ∧ ∀ p, p ∈ ps → freeable h a (data v) p) →
  free_referents (length ps) a i h = Fault ∨
  ∃ h', free_referents (length ps) a i h = Ok tt h' ∧
        h' !! a = Some (Struct v m) ∧ h' !! data v = None.
Proof.
  induction ps as [|p ps IH];
    intros h i a v m cells Ha Hd Hda Hv Hc Hi Hsz Hlen Hcells Hbad.
  { destruct Hbad. split; [constructor | by intros p ?%not_elem_of_nil]. }
  cbn [length free_referents] in *.
  run_by load_run. rewrite decide_True by lia.
  run_by load_run. run_by read_run. rewrite decide_True by lia.
  rewrite <- (Nat.add_0_r (Z.to_nat i)), (Hcells 0%nat p eq_refl). cbn [mjoin].
  destruct (deref h p) as [b|] eqn:Hp.
  2:{ left. apply bind_fault. by apply kfree_dead. }
  unfold deref in Hp. case_decide as Hnull; [done|].
  erewrite bind_run by (by eapply kfree_run).
  destruct (decide (p = a)) as [->|Hpa].
  { left. apply free_referents_dead_struct, load_dead, lookup_delete_eq. }
  destruct (decide (p = data v)) as [->|Hpd].
  { destruct ps as [|p' ps].
    - right. exists (base.delete (data v) h). cbn [length free_referents].
      cbn [length] in Hsz.
      erewrite bind_run by (eapply load_run; [done | by rewrite lookup_delete_ne]).
      rewrite decide_False by lia.
      split_and!; [done | by rewrite lookup_delete_ne | apply lookup_delete_eq].
    - left. cbn [length free_referents].
      erewrite bind_run by (eapply load_run; [done | by rewrite lookup_delete_ne]).
      rewrite decide_True by (cbn [length] in Hsz; lia).
      erewrite bind_run by (eapply load_run; [done | by rewrite lookup_delete_ne]).
      apply bind_fault, read_dead, lookup_delete_eq. }
  apply (IH _ _ _ v m cells); try done; try lia.
  - by rewrite lookup_delete_ne.
  - by rewrite lookup_delete_ne.
  - intros j q Hj.
    replace (Z.to_nat (i + 1) + j)%nat with (Z.to_nat i + S j)%nat by lia.
    by apply Hcells.
  - intros [Hnodup Hfree]. apply Hbad.
    assert (p ∉ ps) as Hnotin.
    { intros Hin. destruct (Hfree p Hin) as (_ & _ & _ & [? Hlive]).
      by rewrite lookup_delete_eq in Hlive. }
    split; [by constructor|].
    intros q [->|Hq]%elem_of_cons.
    + by split_and!.
    + destruct (Hfree q Hq) as (? & ? & ? & [b' Hlive]).
      split_and!; try done.
      apply lookup_delete_Some in Hlive as [_ Hlive]. by eexists.
Qed.

(** X7.  When an owning delete is defined.  For an owning pointer
    vector holding the pointers [ps] in slots [0 .. size): if they are
    pairwise distinct live allocations, none of them the struct or the
    buffer, delete returns and has released exactly them, the buffer
    and the struct; if not (a pointer stored twice, a null or dangling
    pointer, a pointer to the vector's own struct or buffer), delete is
    undefined behaviour, since a block is freed that is not, or no
    longer, allocated. *)
Theorem owning_delete_defined h a v m cells ps :
  vec_at h a v m cells → size v ≤ capacity v →
  take (Z.to_nat (size v)) cells = Some <$> ps →
  own_ptrs m = Some true →
  (NoDup ps ∧ (∀ p, p ∈ ps → freeable h a (data v) p) →
   delete_T_ptr_vector a h
   = Ok tt (base.delete a (base.delete (data v) (free_all ps h)))) ∧
  (¬ (NoDup ps ∧ ∀ p, p ∈ ps → freeable h a (data v) p) →
   delete_T_ptr_vector a h = Fault).
Proof.
  intros Hvec Hle Hps Hown. split.
  - intros [Hnodup Hfree]. by apply (delete_owning h a v m cells ps).
  - intros Hbad.
    pose proof Hvec as (Ha & Hd & Hda & Hv & Hc & Hlen & Hs & Hcap).
    assert (length ps = Z.to_nat (size v)) as Hn.
    { apply (f_equal length) in Hps.
      rewrite length_take, length_fmap in Hps. lia. }
    unfold delete_T_ptr_vector. run_by load_members_run. rewrite Hown.
    assert (∀ j p, ps !! j = Some p → cells !! (Z.to_nat 0 + j)%nat = Some (Some p))
      as Hcells.
    { intros j p Hj. change (Z.to_nat 0 + j)%nat with j.
      rewrite <- (lookup_take_lt _ (Z.to_nat (size v)))
        by (apply lookup_lt_Some in Hj; lia).
      by rewrite Hps, list_lookup_fmap, Hj. }
    destruct (free_referents_undefined ps h 0 a v m cells)
      as [E|(h' & E & Hv' & Hd')]; try done; try lia.
    + apply bind_fault. run_by load_run. by rewrite <- Hn.
    + erewrite bind_run by (run_by load_run; rewrite <- Hn; apply E).
      unfold delete_vector.
      erewrite bind_run by (by eapply load_run).
      apply bind_fault, kfree_dead. unfold deref. by case_decide.
Qed.
End OwningDelete.

(** * The macros call the right functions *)

Lemma push_macro_run {T} (code : fnptr → option (Z → T → M T unit))
    (h : gmap Z (block T)) a v m f run x :
  a ≠ NULL → h !! a = Some (Struct v m) →
  push m = Some f → code f = Some run →
  push_macro code a x h = run a x h.
Proof.
  intros Ha Hv Hf Hrun. unfold push_macro.
  run_by load_members_run. by rewrite Hf, Hrun.
Qed.

Lemma pop_macro_run {T} (code : fnptr → option (Z → M T (option T)))
    (h : gmap Z (block T)) a v m f run :
  a ≠ NULL → h !! a = Some (Struct v m) →
  pop m = Some f → code f = Some run →
  pop_macro code a h = run a h.
Proof.
  intros Ha Hv Hf Hrun. unfold pop_macro.
  run_by load_members_run. by rewrite Hf, Hrun.
Qed.

(** X8.  The macros [push] and [pop] reach the functions of the
    vector's own variant.  On every vector built by a constructor and
    used through push and pop (the allocator satisfying every request),
    the function pointers in the struct are still the ones the
    constructor stored, so the macro [push] runs
    [push_##type##_vector] on a value vector and
    [push_##type##_ptr_vector] on a pointer vector, and likewise
    [pop]. *)
Theorem macros_call_own_variant :
  (∀ T (alloc : gmap Z (block T) → Z → Z) sizeof_T sizeof_T_vector,
     (∀ h n, alloc h n = NULL ∨ h !! alloc h n = None) →
     (∀ h n, alloc h n ≠ NULL) →
     ∀ h a,
       reachable (new_T_vector alloc sizeof_T sizeof_T_vector)
                 (push_T_vector alloc) pop_T_vector h a →
       (∀ x, push_macro (value_push_code alloc) a x h = push_T_vector alloc a x h) ∧
       pop_macro value_pop_code a h = pop_T_vector a h) ∧
  (∀ (alloc : gmap Z (block Z) → Z → Z) sizeof_ptr sizeof_T_ptr_vector own,
     (∀ h n, alloc h n = NULL ∨ h !! alloc h n = None) →
     (∀ h n, alloc h n ≠ NULL) →
     ∀ h a,
       reachable (new_T_ptr_vector alloc sizeof_ptr sizeof_T_ptr_vector own)
                 (push_T_ptr_vector alloc) pop_T_ptr_vector h a →
       (∀ x, push_macro (ptr_push_code alloc) a x h = push_T_ptr_vector alloc a x h) ∧
       pop_macro ptr_pop_code a h = pop_T_ptr_vector a h).
Proof.
  split.
  - intros T alloc sizeof_T sizeof_T_vector Hfresh Hok h a Hreach.
    destruct (reachable_inv alloc Hfresh Hok
                (new_T_vector alloc sizeof_T sizeof_T_vector) value_members)
      with (h := h) (a := a) as (v & cells & k & Hvec & _); [|done|].
    { intros h0 a0 h1 E.
      destruct (new_T_vector_post alloc Hfresh Hok sizeof_T sizeof_T_vector h0)
        as (a1 & d & h2 & E1 & _ & _ & Hvec).
      rewrite E1 in E. injection E as <- <-. by eexists _, _. }
    destruct Hvec as (Ha & _ & _ & Hv & _). split.
    + intros x. by eapply push_macro_run.
    + by eapply pop_macro_run.
  - intros alloc sizeof_ptr sizeof_T_ptr_vector own Hfresh Hok h a Hreach.
    destruct (reachable_inv alloc Hfresh Hok
                (new_T_ptr_vector alloc sizeof_ptr sizeof_T_ptr_vector own)
                (ptr_members own))
      with (h := h) (a := a) as (v & cells & k & Hvec & _); [|done|].
    { intros h0 a0 h1 E.
      destruct (new_T_ptr_vector_post alloc sizeof_ptr sizeof_T_ptr_vector own
                  Hfresh Hok h0) as (a1 & d & h2 & E1 & _ & _ & Hvec).
      rewrite E1 in E. injection E as <- <-. by eexists _, _. }
    destruct Hvec as (Ha & _ & _ & Hv & _). split.
    + intros x. by eapply push_macro_run.
    + by eapply pop_macro_run.
Qed.

(** * What the operations leave alone *)

Section Isolation.
Context {T : Type}.
Variable alloc : gmap Z (block T) → Z → Z.
Hypothesis alloc_fresh : ∀ h n, alloc h n = NULL ∨ h !! alloc h n = None.
Hypothesis alloc_ok : ∀ h n, alloc h n ≠ NULL.
Implicit Types (h : gmap Z (block T)) (a q : Z) (m : members) (st : list T)
  (blk : block T).

Lemma push_leaves_alone h a m c xs x q blk :
  holds h a m c xs → Z.of_nat (length xs) < 2147483648 →
  h !! q = Some blk → q ≠ a →
  (∀ v m', h !! a = Some (Struct v m') → q ≠ data v) →
  ∃ h', push_T_vector alloc a x h = Ok tt h' ∧
        holds h' a m (next_capacity c (Z.of_nat (length xs))) (xs ++ [x]) ∧
        h' !! q = Some blk ∧
        (∀ v m', h' !! a = Some (Struct v m') → q ≠ data v).
Proof.
  intros Hh Hn Hq Hqa Hqd.
  destruct (push_holds alloc alloc_fresh alloc_ok h a m c xs x Hh Hn)
    as (h1 & E1 & Hh1).
  exists h1. split; [done|]. split; [done|].
  destruct Hh as (v & cells & Hvec & Hsz & <- & Hle & Hxs).
  pose proof Hvec as (Ha & Hd & Hda & Hv & Hc & Hlen & Hs & Hcap).
  specialize (Hqd v m Hv).
  destruct (decide (size v = capacity v)) as [Hfull|Hroom].
  - pose proof (alloc_unused alloc alloc_fresh alloc_ok h
                  (Z.max 1 (capacity v * 2) * data_size v)) as Hfresh.
    rewrite (push_growth alloc h a v m cells x Hvec Hfull) in E1;
      [ | lia | apply alloc_ok | done ].
    injection E1 as <-.
    set (d' := alloc h (Z.max 1 (capacity v * 2) * data_size v)) in *.
    assert (q ≠ d') by (intros ->; congruence).
    split; [by simplify_map_eq|].
    intros v' m'. rewrite lookup_insert_eq. by intros [= <- _].
  - rewrite (push_in_place alloc h a v m cells x Hvec) in E1 by lia.
    injection E1 as <-.
    split; [by simplify_map_eq|].
    intros v' m'. rewrite lookup_insert_eq. by intros [= <- _].
Qed.

Lemma pop_leaves_alone h a m c xs x q blk :
  holds h a m c (xs ++ [x]) →
  h !! q = Some blk → q ≠ a →
  (∀ v m', h !! a = Some (Struct v m') → q ≠ data v) →
  ∃ h', pop_T_vector a h = Ok (Some x) h' ∧ holds h' a m c xs ∧
        h' !! q = Some blk ∧
        (∀ v m', h' !! a = Some (Struct v m') → q ≠ data v).
Proof.
  intros Hh Hq Hqa Hqd.
  destruct (pop_holds h a m c xs x Hh) as (h1 & E1 & Hh1).
  exists h1. split; [done|]. split; [done|].
  destruct Hh as (v & cells & Hvec & _).
  pose proof Hvec as (Ha & Hd & Hda & Hv & _).
  specialize (Hqd v m Hv).
  rewrite (pop_run h a v m cells Hvec) in E1. injection E1 as _ <-.
  split; [by simplify_map_eq|].
  intros v' m'. rewrite lookup_insert_eq. by intros [= <- _].
Qed.

(** X9.  Pushes and pops write to nothing but the vector they are
    applied to.  A live block [q] that is neither the struct of the
    vector at [a] nor its buffer is the same block after any sequence
    of pushes and pops on [a] that stays within the contract (no pop
    from an empty vector, at most 2^31 elements, the allocator handing
    out unused memory): the growth of a push releases only the
    vector's own old buffer, and the buffer it moves to is never [q]. *)
Theorem operations_leave_other_blocks h a m c st ops q blk :
  holds h a m c (reverse st) →
  within_contract (Z.of_nat (length st)) ops = true →
  h !! q = Some blk → q ≠ a →
  (∀ v m', h !! a = Some (Struct v m') → q ≠ data v) →
  ∃ h', exec_ops alloc a ops h = Ok (stack_model ops st).1 h' ∧
        h' !! q = Some blk ∧
        (∀ v m', h' !! a = Some (Struct v m') → q ≠ data v).
Proof.
  revert h c st. induction ops as [|[x|] ops IH]; intros h c st Hh Hok Hq Hqa Hqd.
  - by exists h.
  - cbn [within_contract] in Hok.
    apply andb_prop in Hok as [Hn%bool_decide_eq_true Hok].
    destruct (push_leaves_alone h a m c (reverse st) x q blk Hh)
      as (h1 & E1 & Hh1 & Hq1 & Hqd1); [by rewrite length_reverse | done.. | ].
    rewrite <- reverse_cons in Hh1.
    destruct (IH h1 _ (x :: st) Hh1) as (h' & E & Hq' & Hqd'); [ | done.. | ].
    { cbn [length]. by rewrite Nat2Z.inj_succ, <- Z.add_1_r. }
    exists h'. cbn [exec_ops stack_model].
    by rewrite (bind_run _ _ _ _ _ E1).
  - cbn [within_contract] in Hok.
    apply andb_prop in Hok as [Hn%bool_decide_eq_true Hok].
    destruct st as [|x st]; [cbn [length] in Hn; lia|].
    rewrite reverse_cons in Hh.
    destruct (pop_leaves_alone h a m c (reverse st) x q blk Hh)
      as (h1 & E1 & Hh1 & Hq1 & Hqd1); [done.. | ].
    destruct (IH h1 c st Hh1) as (h' & E & Hq' & Hqd'); [ | done.. | ].
    { cbn [length] in Hok.
      by replace (Z.of_nat (length st)) with (Z.of_nat (S (length st)) - 1) by lia. }
    exists h'. cbn [exec_ops stack_model fst snd head tail].
    by rewrite (bind_run _ _ _ _ _ E1), (bind_run _ _ _ _ _ E).
Qed.
End Isolation.

(** * The further laws at concrete vectors *)

Lemma vec_at_ptr_vector_twice :
  vec_at ptr_vector_twice 1 (mk_vector 2 2 4 5) (ptr_members true)
         [Some 3; Some 3].
Proof. unfold vec_at; split_and!; done. Qed.

Lemma stack_within_capacity_witness :
  ∃ h' cells',
    (∀ alloc,
       exec_ops alloc 1 [Pop; Push 7; Push 8; Pop; Pop; Pop] int_vector_3
       = Ok [Some 30; Some 8; Some 7; Some 20] h') ∧
    vec_at h' 1 (mk_vector 1 4 4 4) value_members cells' ∧
    take 1 cells' = [Some 10] ∧
    ∀ q, q ≠ 1 → q ≠ 4 → h' !! q = int_vector_3 !! q.
Proof.
  apply (stack_within_capacity int_vector_3 1 (mk_vector 3 4 4 4) value_members
           [Some 10; Some 20; Some 30; None] [30; 20; 10]
           [Pop; Push 7; Push 8; Pop; Pop; Pop]).
  - apply vec_at_int_vector_3.
  - reflexivity.
  - reflexivity.
  - reflexivity.
Defined.

Lemma pointers_within_capacity_witness :
  ∃ h' cells',
    (∀ alloc,
       exec_ptr_ops alloc 1 [Pop; Push 4; Pop; Pop] (ptr_vector_2 false)
       = Ok [Some 4; Some 4; Some 3] h') ∧
    vec_at h' 1 (mk_vector 0 2 4 5) (ptr_members false) cells' ∧
    take 0 cells' = [] ∧
    ∀ q, q ≠ 1 → q ≠ 5 → h' !! q = ptr_vector_2 false !! q.
Proof.
  apply (pointers_within_capacity (ptr_vector_2 false) 1 (mk_vector 2 2 4 5)
           (ptr_members false) [Some 3; Some 4] [4; 3] [Pop; Push 4; Pop; Pop]).
  - apply vec_at_ptr_vector_2.
  - reflexivity.
  - reflexivity.
  - reflexivity.
Defined.

Lemma stack_refinement_witness :
  ∃ h' c',
    exec_ops bump 1 [Push 1; Push 2; Pop; Push 3; Push 4; Pop; Pop]
             fresh_int_vector
    = Ok [Some 2; Some 4; Some 3] h' ∧
    holds h' 1 value_members c' [1].
Proof.
  apply (stack_refinement bump bump_fresh bump_ok fresh_int_vector 1
           value_members 1 [] [Push 1; Push 2; Pop; Push 3; Push 4; Pop; Pop]).
  - exists (mk_vector 0 1 4 2), [None].
    split; [apply vec_at_fresh_int_vector | done].
  - reflexivity.
Defined.

Lemma push_trusts_vector_resize_witness :
  push_T_vector_with resize_gives_up 1 30 int_vector_full = Fault.
Proof.
  refine (proj1 (proj2 (push_trusts_vector_resize resize_gives_up
                          int_vector_full 1 (mk_vector 2 2 4 3) value_members
                          [Some 10; Some 20] 30 vec_at_int_vector_full _)
                   int_vector_full (mk_vector 2 2 4 3) value_members
                   [Some 10; Some 20] _ vec_at_int_vector_full) _).
  - reflexivity.
  - reflexivity.
  - cbn. lia.
Defined.


Lemma owning_delete_defined_witness :
  delete_T_ptr_vector 1 (ptr_vector_2 true)
  = Ok tt (base.delete 1 (base.delete 5 (free_all [3; 4] (ptr_vector_2 true)))) ∧
  delete_T_ptr_vector 1 ptr_vector_twice = Fault.
Proof.
  split.
  - refine (proj1 (owning_delete_defined (ptr_vector_2 true) 1 (mk_vector 2 2 4 5)
                     (ptr_members true) [Some 3; Some 4] [3; 4]
                     (vec_at_ptr_vector_2 true) _ _ _) _).
    + cbn. lia.
    + reflexivity.
    + reflexivity.
    + split.
      * apply NoDup_cons. split; [ | apply NoDup_singleton ].
        by intros E%list_elem_of_singleton.
      * intros p Hp. unfold freeable, NULL.
        apply elem_of_cons in Hp as [-> | ->%list_elem_of_singleton];
          split_and!; try done; by eexists.
  - refine (proj2 (owning_delete_defined ptr_vector_twice 1 (mk_vector 2 2 4 5)
                     (ptr_members true) [Some 3; Some 3] [3; 3]
                     vec_at_ptr_vector_twice _ _ _) _).
    + cbn. lia.
    + reflexivity.
    + reflexivity.
    + intros [Hnd _]. apply NoDup_cons in Hnd as [Hin _].
      apply Hin, list_elem_of_singleton. reflexivity.
Defined.

Lemma macros_call_own_variant_witness :
  (∀ x, push_macro (value_push_code bump) 1 x fresh_int_vector
        = push_T_vector bump 1 x fresh_int_vector) ∧
  pop_macro value_pop_code 1 fresh_int_vector = pop_T_vector 1 fresh_int_vector.
Proof.
  apply (proj1 macros_call_own_variant Z bump 4 28 bump_fresh bump_ok
           fresh_int_vector 1).
  apply (reach_new _ _ _ ∅). by vm_compute.
Defined.

Lemma delete_without_referents_witness :
  delete_T_ptr_vector 1 (ptr_vector_2 false)
  = delete_T_vector 1 (ptr_vector_2 false).
Proof.
  apply (delete_without_referents (ptr_vector_2 false) 1 (mk_vector 2 2 4 5)
           (ptr_members false)).
  - done.
  - reflexivity.
  - by left.
Defined.

Lemma operations_leave_other_blocks_witness :
  ∃ h',
    exec_ops bump 1 [Push 6; Pop; Pop; Push 7] (ptr_vector_2 false)
    = Ok [Some 6; Some 4] h' ∧
    h' !! 3 = Some Raw ∧
    (∀ v m', h' !! 1 = Some (Struct v m') → 3 ≠ data v).
Proof.
  apply (operations_leave_other_blocks bump bump_fresh bump_ok
           (ptr_vector_2 false) 1 (ptr_members false) 2 [4; 3]
           [Push 6; Pop; Pop; Push 7] 3 Raw).
  - exists (mk_vector 2 2 4 5), [Some 3; Some 4].
    split; [apply vec_at_ptr_vector_2 | done].
  - reflexivity.
  - reflexivity.
  - done.
  - intros v m'. unfold ptr_vector_2. rewrite lookup_insert_eq.
    by intros [= <- _].
Defined.
